(** * Notes service (week_1): the HTTP note store and the NoteV1 contract

    The development embeds [week_1/http/cmd/http_server/main.go]
    (the two handlers over the shared [SyncMap]) and the message and
    service declarations of [api/note_v1/note.proto], and states the
    properties of the Note Store over them. *)

From stdpp Require Import base option list gmap strings.
From Stdlib Require Import ZArith Lia Ascii String.

Local Open Scope string_scope.
Local Open Scope list_scope.
Local Open Scope Z_scope.

(** ** Data model *)

(** [time.Time]: an instant on the clock the process reads, in nanoseconds. *)
Definition Time := Z.

(** [type NoteInfo struct] *)
Record NoteInfo := mkNoteInfo {
  Title : string;
  Context : string;
  Author : string;
  IsPublic : bool
}.

(** [type Note struct]; [ID] is an [int64]. *)
Record Note := mkNote {
  ID : Z;
  Info : NoteInfo;
  CreatedAt : Time;
  UpdatedAt : Time
}.

#[global] Instance NoteInfo_eq_dec : EqDecision NoteInfo.
Proof. solve_decision. Defined.

#[global] Instance Note_eq_dec : EqDecision Note.
Proof. solve_decision. Defined.

(** [type SyncMap struct]: the map from identifier to Note.  The [*Note]
    values are only reachable through the map, so the sequential model
    stores the Note itself; the [sync.RWMutex] field is modelled with
    the interleaving semantics of [Module Locking]. *)
Record SyncMap := mkSyncMap {
  elems : gmap Z Note
}.

(** [var notes = &SyncMap{elems: make(map[int64]*Note)}] *)
Definition notes0 : SyncMap := {| elems := ∅ |}.

(** ** The [http.ResponseWriter], as the calls a handler makes on it *)

Definition StatusOK : Z := 200.
Definition StatusCreated : Z := 201.
Definition StatusBadRequest : Z := 400.
Definition StatusNotFound : Z := 404.
Definition StatusInternalServerError : Z := 500.

Inductive call :=
| HeaderSet (key value : string)    (* w.Header().Set(key, value) *)
| WriteHeader (code : Z)            (* w.WriteHeader(code) *)
| Encode (note : Note)              (* json.NewEncoder(w).Encode(note), done *)
| EncodeFailed (note : Note)        (* the same call, when its Write fails *)
| Error (msg : string) (code : Z).  (* http.Error(w, msg, code) *)

(** The calls in the order they were made. *)
Definition ResponseWriter := list call.

(** The status line the client receives: the first call that commits the
    header decides it, later [WriteHeader] calls are ignored by net/http,
    and a body written before any [WriteHeader] implies 200.  A Note of
    this server always marshals, so an [Encode] fails in its [Write],
    and [Write] commits the implied 200 before it can fail. *)
Fixpoint statusSent (w : ResponseWriter) : option Z :=
  match w with
  | [] => None
  | HeaderSet _ _ :: w' => statusSent w'
  | WriteHeader code :: _ => Some code
  | Encode _ :: _ => Some StatusOK
  | EncodeFailed _ :: _ => Some StatusOK
  | Error _ code :: _ => Some code
  end.

(** The Note a client decodes from the body, if one was encoded. *)
Fixpoint noteSent (w : ResponseWriter) : option Note :=
  match w with
  | [] => None
  | Encode note :: _ => Some note
  | _ :: w' => noteSent w'
  end.

(** The handler took one of its error exits. *)
Definition isError (c : call) : bool :=
  match c with Error _ _ => true | _ => false end.

Definition failed (w : ResponseWriter) : bool := existsb isError w.

(** ** [strconv.ParseInt(s, 10, 64)] *)

Inductive result (E A : Type) :=
| Ok (a : A)
| Err (e : E).
Arguments Ok {E A} a.
Arguments Err {E A} e.

Inductive NumError := ErrSyntax | ErrRange.

Definition maxUint64 : Z := 2 ^ 64 - 1.

(** ['0' <= c && c <= '9': d = c - '0']; every other byte is either not
    a digit or a letter whose value is at least the base 10. *)
Definition digit (c : ascii) : option Z :=
  let n := Z.of_N (N_of_ascii c) in
  if (48 <=? n) && (n <=? 57) then Some (n - 48) else None.

(** The loop of [ParseUint], with [cutoff = maxUint64/10 + 1]. *)
Fixpoint parseUintLoop (s : string) (n : Z) : result NumError Z :=
  match s with
  | EmptyString => Ok n
  | String c s' =>
    match digit c with
    | None => Err ErrSyntax
    | Some d =>
      if maxUint64 / 10 + 1 <=? n then Err ErrRange
      else
        let n1 := n * 10 + d in
        if maxUint64 <? n1 then Err ErrRange else parseUintLoop s' n1
    end
  end.

Definition ParseUint (s : string) : result NumError Z :=
  match s with
  | EmptyString => Err ErrSyntax
  | _ => parseUintLoop s 0
  end.

Definition ParseInt (s : string) : result NumError Z :=
  match s with
  | EmptyString => Err ErrSyntax
  | String c s' =>
    let neg := Ascii.eqb c "-" in
    let s1 := if Ascii.eqb c "+" || neg then s' else s in
    match ParseUint s1 with
    | Err ErrSyntax => Err ErrSyntax
    | r =>
      let un := match r with Ok n => n | Err _ => maxUint64 end in
      let cutoff := 2 ^ 63 in
      if negb neg && (cutoff <=? un) then Err ErrRange
      else if neg && (cutoff <? un) then Err ErrRange
      else Ok (if neg then - un else un)
    end
  end.

(** [func parseNoteID(idStr string) (int64, error)] *)
Definition parseNoteID (idStr : string) : result NumError Z :=
  match ParseInt idStr with
  | Err err => Err err
  | Ok id => Ok id
  end.

(** ** The requests, with what the handler reads from its environment *)

(** A [POST /notes] request. *)
Record CreateRequest := mkCreateRequest {
  body : result string NoteInfo;   (* json.NewDecoder(r.Body).Decode(info) *)
  unixNano : Z;                    (* time.Now().UnixNano(), line 72 *)
  now : Time;                      (* time.Now(), line 73 *)
  encodeErr : option string        (* the error of Encode, if any *)
}.

(** A request routed to [getNoteHandler]. *)
Record GetRequest := mkGetRequest {
  idParam : string;                (* chi.URLParam(r, "id") *)
  getEncodeErr : option string     (* the error of Encode, if any *)
}.

(** [getPostfix], the pattern [main] registers [getNoteHandler] under. *)
Definition getPostfix : string := "/notes/%d".

(** chi binds a URL parameter for every [{name}] of the pattern. *)
Fixpoint hasPlaceholder (pattern : string) : bool :=
  match pattern with
  | EmptyString => false
  | String c rest => Ascii.eqb c "{" || hasPlaceholder rest
  end.

(** ** The handlers *)

Section Server.

(** The first 64 bits the global math/rand source yields after
    [rand.Seed(seed)]. *)
Variable seeded : Z → Z.

Definition rngMask : Z := 2 ^ 63 - 1.

(** [rand.Int63()] right after [rand.Seed(seed)]:
    [int64(rng.Uint64() & rngMask)]. *)
Definition Int63 (seed : Z) : Z := Z.land (seeded seed) rngMask.

(** Lines 72-81: the Note built for a decoded [info]. *)
Definition newNote (r : CreateRequest) (info : NoteInfo) : Note :=
  let seed := unixNano r in
  let now := now r in
  {| ID := Int63 seed; Info := info; CreatedAt := now; UpdatedAt := now |}.

(** [func createNoteHandler(w http.ResponseWriter, r *http.Request)] *)
Definition createNoteHandler (w : ResponseWriter) (r : CreateRequest)
    (notes : SyncMap) : ResponseWriter * SyncMap :=
  match body r with
  | Err err => (w ++ [Error err StatusBadRequest], notes)
  | Ok info =>
    let note := newNote r info in
    let w := w ++ [HeaderSet "Content-Type" "application/json"] in
    let w := w ++ [WriteHeader StatusCreated] in
    match encodeErr r with
    | Some err => (w ++ [Error err StatusInternalServerError], notes)
    | None =>
      let w := w ++ [Encode note] in
      (w, {| elems := <[ID note := note]> (elems notes) |})
    end
  end.

(** [func getNoteHandler(w http.ResponseWriter, r *http.Request)] *)
Definition getNoteHandler (w : ResponseWriter) (r : GetRequest)
    (notes : SyncMap) : ResponseWriter * SyncMap :=
  match parseNoteID (idParam r) with
  | Err _ => (w ++ [Error "Invalid note ID" StatusBadRequest], notes)
  | Ok id =>
    match elems notes !! id with
    | None => (w ++ [Error "Note not found" StatusNotFound], notes)
    | Some note =>
      let w := w ++ [HeaderSet "Content-Type" "application/json"] in
      match getEncodeErr r with
      | Some _ =>
        (w ++ [EncodeFailed note]
           ++ [Error "Failed to encode note data" StatusInternalServerError],
         notes)
      | None => (w ++ [Encode note], notes)
      end
    end
  end.

End Server.

(** ** The NoteV1 service: declared in note.proto, not implemented here *)

(** [message UpdateNoteInfo]: every field is a nullable wrapper
    ([google.protobuf.StringValue], [google.protobuf.BoolValue]); a field
    left null is the patch entry "absent", a wrapped value is "present". *)
Record UpdateNoteInfo := mkUpdateNoteInfo {
  title : option string;
  context : option string;
  author : option string;
  is_public : option bool
}.

(** The patch with every entry absent. *)
Definition noPatch : UpdateNoteInfo :=
  {| title := None; context := None; author := None; is_public := None |}.

(** The error kinds of the Note Store. *)
Inductive StoreError := NotFound | InvalidArgument | IdentifierExhausted.

(** Modelled from the spec: the Note Store behind both transports.  The
    repository holds its collection only as the [SyncMap] of the HTTP
    server; the insertion order the spec mandates for List is kept next
    to it as the sequence of identifiers in the order they were first
    stored. *)
Record Store := mkStore {
  notes : SyncMap;
  order : list Z
}.

Definition store0 : Store := {| notes := notes0; order := [] |}.

(** The Notes of the store, oldest insertion first. *)
Definition stored (st : Store) : list Note :=
  omap (λ id, elems (notes st) !! id) (order st).

(** Modelled from the spec: the patch-application rule of Update, which
    the repository declares ([rpc Update], [UpdateNoteInfo]) and does
    not implement.  A present entry overwrites, an absent one keeps. *)
Definition applyPatch (p : UpdateNoteInfo) (info : NoteInfo) : NoteInfo :=
  {| Title := default (Title info) (title p);
     Context := default (Context info) (context p);
     Author := default (Author info) (author p);
     IsPublic := default (IsPublic info) (is_public p) |}.

(** Modelled from the spec: [Update(id, patch)], absent from the
    repository.  [t] is the reading of [now()]. *)
Definition Update (id : Z) (p : UpdateNoteInfo) (t : Time) (st : Store)
    : result StoreError Note * Store :=
  match elems (notes st) !! id with
  | None => (Err NotFound, st)
  | Some n =>
    let n' := {| ID := ID n; Info := applyPatch p (Info n);
                 CreatedAt := CreatedAt n; UpdatedAt := t |} in
    (Ok n', {| notes := {| elems := <[id := n']> (elems (notes st)) |};
               order := order st |})
  end.

(** Modelled from the spec: [Delete(id)], absent from the repository. *)
Definition Delete (id : Z) (st : Store) : result StoreError unit * Store :=
  match elems (notes st) !! id with
  | None => (Err NotFound, st)
  | Some _ =>
    (Ok tt, {| notes := {| elems := delete id (elems (notes st)) |};
               order := filter (λ k, k ≠ id) (order st) |})
  end.

(** Modelled from the spec: [List(limit, offset)], absent from the
    repository; [limit <= 0] returns nothing, and so the conversion to
    a count clamps at zero. *)
Definition List (limit offset : Z) (st : Store) : list Note :=
  take (Z.to_nat limit) (drop (Z.to_nat offset) (stored st)).

Section StoreOps.

Variable seeded : Z → Z.

(** Create on the Store is [createNoteHandler] on its map; the
    identifier joins the insertion order when the handler stored a
    Note under a key the map did not hold. *)
Definition Create (r : CreateRequest) (st : Store)
    : ResponseWriter * Store :=
  let '(w, m) := createNoteHandler seeded [] r (notes st) in
  let id := Int63 seeded (unixNano r) in
  (w, {| notes := m;
         order := if decide (elems (notes st) !! id = None
                             ∧ is_Some (elems m !! id))
                  then order st ++ [id] else order st |}).

(** Get on the Store is [getNoteHandler] on its map. *)
Definition Get (r : GetRequest) (st : Store) : ResponseWriter * Store :=
  let '(w, m) := getNoteHandler [] r (notes st) in
  (w, {| notes := m; order := order st |}).

(** The five operations, as the requests a transport hands over. *)
Inductive request :=
| ReqCreate (r : CreateRequest)
| ReqGet (r : GetRequest)
| ReqList (limit offset : Z)
| ReqUpdate (id : Z) (p : UpdateNoteInfo) (t : Time)
| ReqDelete (id : Z).

Inductive reply :=
| Written (w : ResponseWriter)
| Listed (l : list Note)
| Updated (res : result StoreError Note)
| Deleted (res : result StoreError unit).

Definition serve (q : request) (st : Store) : reply * Store :=
  match q with
  | ReqCreate r => let '(w, st') := Create r st in (Written w, st')
  | ReqGet r => let '(w, st') := Get r st in (Written w, st')
  | ReqList limit offset => (Listed (List limit offset st), st)
  | ReqUpdate id p t => let '(res, st') := Update id p t st in (Updated res, st')
  | ReqDelete id => let '(res, st') := Delete id st in (Deleted res, st')
  end.

(** The operation reported an error to its caller. *)
Definition errored (rp : reply) : bool :=
  match rp with
  | Written w => failed w
  | Listed _ => false
  | Updated (Err _) | Deleted (Err _) => true
  | Updated (Ok _) | Deleted (Ok _) => false
  end.

(** The reading of [now()] an operation takes, if it takes one. *)
Definition reads (q : request) : option Time :=
  match q with
  | ReqCreate r => Some (now r)
  | ReqUpdate _ _ t => Some t
  | _ => None
  end.

(** The store and the latest reading of its monotonic clock. *)
Record World := mkWorld {
  store : Store;
  clock : Time
}.

(** Modelled from the spec: the monotonic clock of the timestamp
    policy, which the repository leaves to [time.Now()].  One operation
    of the Note Store; the clock never runs backwards: an operation
    that reads it reads no less than the reading before. *)
Inductive step : World → World → Prop :=
| step_serve q w :
    (∀ t, reads q = Some t → clock w ≤ t) →
    step w {| store := (serve q (store w)).2;
              clock := default (clock w) (reads q) |}.

(** The worlds the service can be in, from the empty store. *)
Inductive reachable : World → Prop :=
| reachable_init t0 : reachable {| store := store0; clock := t0 |}
| reachable_step w w' : reachable w → step w w' → reachable w'.

End StoreOps.

(** ** Invariants of the store, and a sample run *)

(** Every Note was created no later than it was last updated, and
    neither lies ahead of the clock. *)
Definition timesOrdered (w : World) : Prop :=
  map_Forall (λ _ n, CreatedAt n ≤ UpdatedAt n ≤ clock w)
             (elems (notes (store w))).

(** The order lists every stored identifier once, and nothing else. *)
Definition orderTracks (st : Store) : Prop :=
  NoDup (order st) ∧ ∀ k, k ∈ order st ↔ is_Some (elems (notes st) !! k).

(** A run: a Note is created at 100 and patched at 250. *)
Definition sampleInfo : NoteInfo := mkNoteInfo "A" "B" "C" true.

Definition sampleWorld : World :=
  {| store := (Update 42 noPatch 250
                 (Create (λ s, s)
                    (mkCreateRequest (Ok sampleInfo) 42 100 None) store0).2).2;
     clock := 250 |}.

(** ** The handlers as threads over the locked map *)

Module Locking.

(** The fields of a Note, as an encoder reads them and an update
    writes them: one at a time, through the [*Note]. *)
Inductive field :=
| FID | FTitle | FContext | FAuthor | FIsPublic | FCreatedAt | FUpdatedAt.

Definition fields : list field :=
  [FID; FTitle; FContext; FAuthor; FIsPublic; FCreatedAt; FUpdatedAt].

#[global] Instance field_eq_dec : EqDecision field.
Proof. solve_decision. Defined.

(** [dst.f = src.f] *)
Definition copyField (f : field) (src dst : Note) : Note :=
  let i := Info dst in
  match f with
  | FID => mkNote (ID src) i (CreatedAt dst) (UpdatedAt dst)
  | FTitle =>
    mkNote (ID dst)
           (mkNoteInfo (Title (Info src)) (Context i) (Author i) (IsPublic i))
           (CreatedAt dst) (UpdatedAt dst)
  | FContext =>
    mkNote (ID dst)
           (mkNoteInfo (Title i) (Context (Info src)) (Author i) (IsPublic i))
           (CreatedAt dst) (UpdatedAt dst)
  | FAuthor =>
    mkNote (ID dst)
           (mkNoteInfo (Title i) (Context i) (Author (Info src)) (IsPublic i))
           (CreatedAt dst) (UpdatedAt dst)
  | FIsPublic =>
    mkNote (ID dst)
           (mkNoteInfo (Title i) (Context i) (Author i) (IsPublic (Info src)))
           (CreatedAt dst) (UpdatedAt dst)
  | FCreatedAt => mkNote (ID dst) i (CreatedAt src) (UpdatedAt dst)
  | FUpdatedAt => mkNote (ID dst) i (CreatedAt dst) (UpdatedAt src)
  end.

(** The zero value [Note{}]. *)
Definition zeroNote : Note := mkNote 0 (mkNoteInfo "" "" "" false) 0 0.

(** [sync.RWMutex]: whether a writer holds it, and how many readers. *)
Record RWMutex := mkRWMutex {
  writer : bool;
  readerCount : nat
}.

(** What a goroutine holds of the mutex, i.e. which unlock it deferred. *)
Inductive mode := Idle | Reading | Writing.

#[global] Instance mode_eq_dec : EqDecision mode.
Proof. solve_decision. Defined.

Inductive instr :=
| Lock                         (* notes.m.Lock() *)
| Unlock                       (* the deferred notes.m.Unlock() *)
| RLock                        (* notes.m.RLock() *)
| RUnlock                      (* the deferred notes.m.RUnlock() *)
| New (n : Note)               (* note := &Note{...} *)
| Assign (id : Z)              (* notes.elems[id] = note *)
| Load (id : Z)                (* note, ok := notes.elems[id]; if !ok { return } *)
| Nth (i : nat)                (* the i-th note of a range over notes.elems *)
| Remove (id : Z)              (* delete(notes.elems, id) *)
| Read (f : field)             (* the encoder reads note.f *)
| WriteF (f : field) (v : Note)  (* note.f = v.f *)
| Emit.                        (* the encoded Note goes out *)

(** The memory the goroutines share: the mutex, the map
    [map[int64]*Note] and the Notes the pointers lead to. *)
Record shared := mkShared {
  mu : RWMutex;
  ptrs : gmap Z nat;
  heap : gmap nat Note
}.

(** A goroutine serving one request. *)
Record thread := mkThread {
  prog : list instr;     (* what is left to run *)
  held : mode;
  cur : option nat;      (* the local [note *Note] *)
  buf : Note;            (* what the encoder has read so far *)
  got : list field       (* the fields it has read *)
}.

Definition spawn (p : list instr) : thread :=
  {| prog := p; held := Idle; cur := None; buf := zeroNote; got := [] |}.

(** A [return]: only the deferred unlock is left to run. *)
Definition release (h : mode) : list instr :=
  match h with
  | Idle => []
  | Reading => [RUnlock]
  | Writing => [Unlock]
  end.

(** One instruction of one goroutine.  [None]: the goroutine has
    finished, is blocked on the mutex, or has crashed (an unlock of a
    mutex that is not locked, a nil [*Note]).  The third component is
    the Note that left in a response, if the instruction was [Emit]. *)
Definition exec (t : thread) (s : shared)
    : option (thread * shared * option Note) :=
  match prog t with
  | [] => None
  | i :: k =>
    let next (t' : thread) (s' : shared) := Some (t', s', None) in
    let t0 := {| prog := k; held := held t; cur := cur t;
                 buf := buf t; got := got t |} in
    match i with
    | Lock =>
      if writer (mu s) || negb (readerCount (mu s) =? 0)%nat then None
      else next {| prog := k; held := Writing; cur := cur t;
                   buf := buf t; got := got t |}
                {| mu := mkRWMutex true 0; ptrs := ptrs s; heap := heap s |}
    | Unlock =>
      if writer (mu s)
      then next {| prog := k; held := Idle; cur := cur t;
                   buf := buf t; got := got t |}
                {| mu := mkRWMutex false (readerCount (mu s));
                   ptrs := ptrs s; heap := heap s |}
      else None
    | RLock =>
      if writer (mu s) then None
      else next {| prog := k; held := Reading; cur := cur t;
                   buf := buf t; got := got t |}
                {| mu := mkRWMutex false (S (readerCount (mu s)));
                   ptrs := ptrs s; heap := heap s |}
    | RUnlock =>
      match readerCount (mu s) with
      | O => None
      | S n =>
        next {| prog := k; held := Idle; cur := cur t;
                buf := buf t; got := got t |}
             {| mu := mkRWMutex (writer (mu s)) n;
                ptrs := ptrs s; heap := heap s |}
      end
    | New n =>
      let p := fresh (dom (heap s)) in
      next {| prog := k; held := held t; cur := Some p;
              buf := buf t; got := [] |}
           {| mu := mu s; ptrs := ptrs s; heap := <[p := n]> (heap s) |}
    | Assign id =>
      match cur t with
      | None => None
      | Some p =>
        next t0 {| mu := mu s; ptrs := <[id := p]> (ptrs s); heap := heap s |}
      end
    | Load id =>
      match ptrs s !! id with
      | None =>
        next {| prog := release (held t); held := held t; cur := cur t;
                buf := buf t; got := got t |} s
      | Some p =>
        next {| prog := k; held := held t; cur := Some p;
                buf := buf t; got := [] |} s
      end
    | Nth j =>
      match map_to_list (ptrs s) !! j with
      | None =>
        next {| prog := release (held t); held := held t; cur := cur t;
                buf := buf t; got := got t |} s
      | Some (_, p) =>
        next {| prog := k; held := held t; cur := Some p;
                buf := buf t; got := [] |} s
      end
    | Remove id =>
      next t0 {| mu := mu s; ptrs := delete id (ptrs s); heap := heap s |}
    | Read f =>
      match cur t ≫= (heap s !!.) with
      | None => None
      | Some n =>
        next {| prog := k; held := held t; cur := cur t;
                buf := copyField f n (buf t); got := f :: got t |} s
      end
    | WriteF f v =>
      match cur t with
      | None => None
      | Some p =>
        match heap s !! p with
        | None => None
        | Some n =>
          next t0 {| mu := mu s; ptrs := ptrs s;
                     heap := <[p := copyField f v n]> (heap s) |}
        end
      end
    | Emit => Some (t0, s, Some (buf t))
    end
  end.

(** The goroutines of the server and the memory they share. *)
Record config := mkConfig {
  mem : shared;
  threads : list thread
}.

(** The scheduler runs one instruction of goroutine [i]. *)
Definition stepAt (i : nat) (c : config) : option (config * option Note) :=
  match threads c !! i with
  | None => None
  | Some t =>
    match exec t (mem c) with
    | None => None
    | Some (t', s', out) =>
      Some ({| mem := s'; threads := <[i := t']> (threads c) |}, out)
    end
  end.

(** *** The programs of the handlers *)

(** [createNoteHandler], lines 76-99: the Note is built and encoded
    into the response before the lock is taken (line 88), then stored
    under the lock, and the deferred unlock runs. *)
Definition createProg (n : Note) : list instr :=
  [New n] ++ map Read fields ++ [Emit; Lock; Assign (ID n); Unlock].

(** The same handler when the encoding fails (lines 88-92): it returns
    before the lock, and nothing is stored. *)
Definition createFailProg (n : Note) : list instr :=
  [New n] ++ map Read fields.

(** [getNoteHandler], lines 116-135: the read lock is held from the
    lookup to the end of the encoding. *)
Definition getProg (id : Z) : list instr :=
  [RLock; Load id] ++ map Read fields ++ [Emit; RUnlock].

(** The same handler when the encoding fails (lines 130-134): it
    returns through the deferred unlock, and no Note went out. *)
Definition getFailProg (id : Z) : list instr :=
  [RLock; Load id] ++ map Read fields ++ [RUnlock].

(** The values an Update writes, as a Note to copy fields from. *)
Definition patchValues (p : UpdateNoteInfo) (t : Time) : Note :=
  mkNote 0 (applyPatch p (mkNoteInfo "" "" "" false)) 0 t.

Definition patchWrites (p : UpdateNoteInfo) (t : Time) : list instr :=
  let v := patchValues p t in
  (if title p is Some _ then [WriteF FTitle v] else [])
  ++ (if context p is Some _ then [WriteF FContext v] else [])
  ++ (if author p is Some _ then [WriteF FAuthor v] else [])
  ++ (if is_public p is Some _ then [WriteF FIsPublic v] else [])
  ++ [WriteF FUpdatedAt v].

(** Modelled from the spec: the goroutine of an Update, absent from the
    repository; a writer, so it runs under the write lock. *)
Definition updateProg (id : Z) (p : UpdateNoteInfo) (t : Time) : list instr :=
  [Lock; Load id] ++ patchWrites p t ++ [Unlock].

(** Modelled from the spec: the goroutine of a Delete, absent from the
    repository; a writer. *)
Definition deleteProg (id : Z) : list instr :=
  [Lock; Load id; Remove id; Unlock].

(** Modelled from the spec: the goroutine of a List that reads up to
    [count] Notes, absent from the repository; a reader, so it runs
    under the read lock. *)
Definition listProg (count : nat) : list instr :=
  [RLock]
  ++ flat_map (λ j, [Nth j] ++ map Read fields ++ [Emit]) (seq 0 count)
  ++ [RUnlock].

Inductive handler :=
| HCreate (n : Note)
| HGet (id : Z)
| HList (count : nat)
| HUpdate (id : Z) (p : UpdateNoteInfo) (t : Time)
| HDelete (id : Z)
| HCreateFails (n : Note)
| HGetFails (id : Z).

Definition program (h : handler) : list instr :=
  match h with
  | HCreate n => createProg n
  | HGet id => getProg id
  | HList count => listProg count
  | HUpdate id p t => updateProg id p t
  | HDelete id => deleteProg id
  | HCreateFails n => createFailProg n
  | HGetFails id => getFailProg id
  end.

(** The handlers that build a Note of their own. *)
Definition builds (h : handler) : bool :=
  match h with
  | HCreate _ | HCreateFails _ => true
  | _ => false
  end.

(** The server with one goroutine per request, none of them started. *)
Definition init (hs : list handler) : config :=
  {| mem := {| mu := mkRWMutex false 0; ptrs := ∅; heap := ∅ |};
     threads := map (λ h, spawn (program h)) hs |}.

(** The configurations some schedule leads to. *)
Inductive reachable (hs : list handler) : config → Prop :=
| reachable_init : reachable hs (init hs)
| reachable_step c i c' out :
    reachable hs c → stepAt i c = Some (c', out) → reachable hs c'.

(** A schedule names the goroutine to run at each step; [run] follows
    it and collects the Notes that went out. *)
Fixpoint run (sched : list nat) (c : config) : option (config * list Note) :=
  match sched with
  | [] => Some (c, [])
  | i :: sched' =>
    match stepAt i c with
    | None => None
    | Some (c', out) =>
      match run sched' c' with
      | None => None
      | Some (c'', outs) => Some (c'', option_list out ++ outs)
      end
    end
  end.

(** The Notes the map leads to. *)
Definition published (s : shared) (n : Note) : Prop :=
  ∃ id p, ptrs s !! id = Some p ∧ heap s !! p = Some n.

(** The lock discipline of a program, checked on its text: the map and
    the Notes it leads to are read under a lock and written under the
    write lock, a goroutine holding no lock reads only the Note it has
    just built, a Note is sent only once all its fields were read, and
    the unlock is the last thing the goroutine does. *)
Fixpoint safe (h : mode) (ptr : bool) (seen : list field) (k : list instr)
    : bool :=
  match k with
  | [] => bool_decide (h = Idle)
  | i :: k' =>
    match h, i with
    | Idle, New _ => safe Idle true [] k'
    | Idle, Read f => ptr && safe Idle ptr (f :: seen) k'
    | Idle, Emit =>
      ptr && forallb (λ f, bool_decide (f ∈ seen)) fields
      && safe Idle ptr seen k'
    | Idle, Lock => safe Writing ptr seen k'
    | Idle, RLock => negb ptr && safe Reading false seen k'
    | Writing, Unlock => bool_decide (k' = [])
    | Reading, RUnlock => bool_decide (k' = [])
    | Writing, Assign _ => ptr && safe Writing ptr seen k'
    | Writing, Remove _ => safe Writing ptr seen k'
    | Writing, WriteF _ _ => ptr && safe Writing ptr seen k'
    | Writing, (Load _ | Nth _) => safe Writing true [] k'
    | Reading, (Load _ | Nth _) => safe Reading true [] k'
    | Reading, Read f => ptr && safe Reading ptr (f :: seen) k'
    | Reading, Emit =>
      ptr && forallb (λ f, bool_decide (f ∈ seen)) fields
      && safe Reading ptr seen k'
    | _, _ => false
    end
  end.

(** *** What the proofs keep track of *)

(** The writes of an Update, run one after the other on a Note, make
    the Note the sequential [Update] stores. *)
Definition runWrites (k : list instr) (n : Note) : Note :=
  foldl (λ n i, match i with WriteF f v => copyField f v n | _ => n end) n k.

Definition readers (ts : list thread) : nat :=
  List.length (filter (λ t, held t = Reading) ts).

Definition isReading (t : thread) : nat :=
  if decide (held t = Reading) then 1%nat else 0%nat.

Definition hasPtr (t : thread) : bool := bool_decide (is_Some (cur t)).

Definition disciplined (t : thread) : Prop :=
  safe (held t) (hasPtr t) (got t) (prog t) = true.

(** Every pointer of the map and of the goroutine leads to a Note. *)
Definition allocated (s : shared) (t : thread) : Prop :=
  (∀ id p, ptrs s !! id = Some p → is_Some (heap s !! p))
  ∧ (∀ p, cur t = Some p → is_Some (heap s !! p)).

(** What a reader knows of the Note it is reading: the pointer came
    from the map, and the fields read so far are those the Note has. *)
Definition view (s : shared) (t : thread) : Prop :=
  held t = Reading →
  ∀ p, cur t = Some p →
    ∃ n, heap s !! p = Some n
         ∧ (∃ id, ptrs s !! id = Some p)
         ∧ ∀ f, f ∈ got t → copyField f n (buf t) = buf t.

(** What a goroutine knows of the Note it has built and not stored
    yet: the fields read so far are those the Note has, the map does
    not lead to it, and no other goroutine has its pointer. *)
Definition own (c : config) : Prop :=
  ∀ i t p,
    threads c !! i = Some t → held t = Idle → prog t ≠ [] → cur t = Some p →
    (∃ n, heap (mem c) !! p = Some n
          ∧ ∀ f, f ∈ got t → copyField f n (buf t) = buf t)
    ∧ (∀ id, ptrs (mem c) !! id ≠ Some p)
    ∧ (∀ j tj, threads c !! j = Some tj → j ≠ i → cur tj ≠ Some p).

(** The program builds no Note. *)
Definition noNew (k : list instr) : bool :=
  forallb (λ i, match i with New _ => false | _ => true end) k.

(** The goroutine of a handler that builds no Note has no pointer
    while it holds no lock and has not returned. *)
Definition lockedReads (hs : list handler) (c : config) : Prop :=
  ∀ i h t,
    hs !! i = Some h → threads c !! i = Some t → builds h = false →
    noNew (prog t) = true
    ∧ (held t = Idle → prog t ≠ [] → cur t = None).

Record invariant (c : config) : Prop := mkInvariant {
  inv_writer : ∀ i t,
    threads c !! i = Some t → held t = Writing →
    writer (mu (mem c)) = true;
  inv_one : ∀ i j ti tj,
    threads c !! i = Some ti → threads c !! j = Some tj →
    held ti = Writing → held tj = Writing → i = j;
  inv_readers : readers (threads c) = readerCount (mu (mem c));
  inv_excl : writer (mu (mem c)) = true → readerCount (mu (mem c)) = 0%nat;
  inv_disc : ∀ i t, threads c !! i = Some t → disciplined t;
  inv_alloc : ∀ i t, threads c !! i = Some t → allocated (mem c) t;
  inv_view : ∀ i t, threads c !! i = Some t → view (mem c) t
}.

(** The map as the handlers of the sequential model see it: each
    identifier with the Note its pointer leads to. *)
Definition contents (s : shared) : gmap Z Note :=
  omap (λ p, heap s !! p) (ptrs s).

(** [k] instructions of one goroutine in a row, with the Notes sent. *)
Fixpoint execN (k : nat) (t : thread) (s : shared)
    : option (thread * shared * list Note) :=
  match k with
  | O => Some (t, s, [])
  | S k' =>
    match exec t s with
    | None => None
    | Some (t', s', out) =>
      match execN k' t' s' with
      | None => None
      | Some (t'', s'', outs) => Some (t'', s'', option_list out ++ outs)
      end
    end
  end.

(** *** Sample servers *)

Definition sampleNote : Note := mkNote 7 (mkNoteInfo "A" "B" "C" true) 100 100.

Definition samplePatch : UpdateNoteInfo :=
  mkUpdateNoteInfo (Some "T") (Some "X") None None.

(** A Create, a Get and an Update of the same Note. *)
Definition sampleHandlers : list handler :=
  [HCreate sampleNote; HGet 7; HUpdate 7 samplePatch 300].

(** The Create runs to its end, then the Get up to its [Emit]. *)
Definition sampleSchedule : list nat :=
  replicate 12 0%nat ++ replicate 9 1%nat.

(** The Create alone, up to its [Emit]. *)
Definition sampleBuilding : config :=
  default (init sampleHandlers)
          (fst <$> run (replicate 8 0%nat) (init sampleHandlers)).

Definition sampleConfig : config :=
  default (init sampleHandlers)
          (fst <$> run sampleSchedule (init sampleHandlers)).

(** The same server with a Get that takes no lock. *)
Definition unlockedGet (id : Z) : list instr :=
  [Load id] ++ map Read fields ++ [Emit].

Definition unlockedServer : config :=
  {| mem := {| mu := mkRWMutex false 0; ptrs := ∅; heap := ∅ |};
     threads := [spawn (createProg sampleNote); spawn (unlockedGet 7);
                 spawn (updateProg 7 samplePatch 300)] |}.

End Locking.

(** * The rest of the two programs *)

(** ** [fmt.Sprintf] with the verb [%d] *)

(** ['0' + d] *)
Definition digitChar (d : Z) : ascii := ascii_of_N (Z.to_N (48 + d)).

(** The decimal loop of [strconv]: the digits are written from the
    last to the first, [for u >= 10 { ...u%10...; u /= 10 }], then the
    leading one.  A [uint64] has at most 20 of them. *)
Fixpoint formatBits (fuel : nat) (u : Z) (acc : string) : string :=
  match fuel with
  | O => acc
  | S fuel' =>
    if u <? 10 then String (digitChar u) acc
    else formatBits fuel' (u / 10) (String (digitChar (u mod 10)) acc)
  end.

Definition FormatUint (u : Z) : string := formatBits 20 u "".

(** [%d] of an [int64]: the sign, then the digits of the magnitude. *)
Definition FormatInt (i : Z) : string :=
  if i <? 0 then String "-" (FormatUint (- i)) else FormatUint i.

(** [fmt.Sprintf(format, arg)] for a format with one [%d]. *)
Fixpoint Sprintf (format : string) (arg : Z) : string :=
  match format with
  | EmptyString => EmptyString
  | String c rest =>
    match rest with
    | String c' rest' =>
      if Ascii.eqb c "%" && Ascii.eqb c' "d"
      then FormatInt arg ++ rest'
      else String c (Sprintf rest arg)
    | EmptyString => format
    end
  end.

(** The constants of the client, [http_client/main.go] lines 29-36. *)
Definition baseUrl : string := "http://localhost:8081".
Definition createPostfix : string := "/notes".

(** ** The router of [main], [http_server/main.go] lines 152-168 *)

Definition StatusMethodNotAllowed : Z := 405.

(** A request as the server receives it. *)
Record Request := mkRequest {
  Method : string;       (* r.Method *)
  URLPath : string;      (* r.URL.Path, what chi routes on *)
  env : CreateRequest    (* the body and what the handler reads around it *)
}.

Section Router.

Variable seeded : Z → Z.

(** [r.Post(createPostfix, createNoteHandler)] and
    [r.Get(getPostfix, getNoteHandler)].  Neither pattern has a
    placeholder or a wildcard, so chi routes to a handler the paths
    equal to its pattern and binds no URL parameter:
    [chi.URLParam(r, "id")] is the empty string.  A path registered
    for another method only gets 405, any other path the 404 of
    [http.NotFound]. *)
Definition ServeHTTP (r : Request) (notes : SyncMap)
    : ResponseWriter * SyncMap :=
  if decide (URLPath r = createPostfix) then
    if decide (Method r = "POST")
    then createNoteHandler seeded [] (env r) notes
    else ([WriteHeader StatusMethodNotAllowed], notes)
  else if decide (URLPath r = getPostfix) then
    if decide (Method r = "GET")
    then getNoteHandler []
           {| idParam := ""; getEncodeErr := encodeErr (env r) |} notes
    else ([WriteHeader StatusMethodNotAllowed], notes)
  else ([Error "404 page not found" StatusNotFound], notes).

(** The server handling requests one after the other. *)
Fixpoint serveAll (rs : list Request) (notes : SyncMap) : SyncMap :=
  match rs with
  | [] => notes
  | r :: rs' => serveAll rs' (ServeHTTP r notes).2
  end.

End Router.

(** What holds of every Note the server stores. *)
Definition wellStored (notes : SyncMap) : Prop :=
  map_Forall (λ k n, ID n = k ∧ 0 ≤ k < 2 ^ 63 ∧ UpdatedAt n = CreatedAt n)
             (elems notes).

(** ** The client, [http_client/main.go] *)

Module Client.

(** The body of a response as the server wrote it: the JSON of a Note,
    the text of an [http.Error], or nothing. *)
Inductive payload :=
| JSONNote (n : Note)
| Text (s : string)
| NoBody.

(** [*http.Response], as far as the client looks at it. *)
Record Response := mkResponse {
  StatusCode : Z;
  Body : payload;
  closeErr : option string     (* the error of Body.Close(), if any *)
}.

Fixpoint bodyOf (w : ResponseWriter) : payload :=
  match w with
  | [] => NoBody
  | Encode n :: _ => JSONNote n
  | Error msg _ :: _ => Text msg
  | _ :: w' => bodyOf w'
  end.

(** What the client receives of what a handler did to its
    [ResponseWriter]. *)
Definition received (w : ResponseWriter) : Response :=
  {| StatusCode := default StatusOK (statusSent w);
     Body := bodyOf w;
     closeErr := None |}.

(** The fields of a Note of the server, in the order of the struct. *)
Definition wire (n : Note) : Z * NoteInfo * Time * Time :=
  (ID n, Info n, CreatedAt n, UpdatedAt n).

(** A function returns, or [log.Fatal] ends the process. *)
Inductive outcome (A : Type) :=
| Returns (a : A)
| Fatal (msg : string).
Arguments Returns {A} a.
Arguments Fatal {A} msg.

(** [type Note struct] of the client: the two times are strings. *)
Record Note := mkNote {
  ID : Z;
  Info : NoteInfo;
  CreatedAt : string;
  UpdatedAt : string
}.

(** [Note{}] *)
Definition zero : Note :=
  {| ID := 0; Info := mkNoteInfo "" "" "" false;
     CreatedAt := ""; UpdatedAt := "" |}.

Section Calls.

(** The network with the server behind it; the bytes [json.Marshal]
    makes of a NoteInfo; [http.Post] and [http.Get] by URL; and
    [json.NewDecoder(resp.Body).Decode]. *)
Variable W : Type.
Variable Data : Type.
Variable Marshal : NoteInfo → result string Data.
Variable Post : string → Data → W → result string Response * W.
Variable Get : string → W → result string Response * W.
Variable Decode : payload → result string Note.

(** The deferred [Body.Close()]: it runs when the function returns,
    and its failure is fatal. *)
Definition closing {A : Type} (resp : Response) (ret : A) : outcome A :=
  match closeErr resp with
  | Some err => Fatal ("Failed to close body:" ++ err)
  | None => Returns ret
  end.

(** [func createNoteClient() (Note, error)]; [note] is what gofakeit
    generated.  At the status check [err] is the nil that [http.Post]
    returned. *)
Definition createNoteClient (note : NoteInfo) (w : W)
    : outcome (Note * option string) * W :=
  match Marshal note with
  | Err err => (Returns (zero, Some err), w)
  | Ok data =>
    match Post (baseUrl ++ createPostfix) data w with
    | (Err err, w') => (Returns (zero, Some err), w')
    | (Ok resp, w') =>
      (closing resp
         (if decide (StatusCode resp ≠ StatusCreated) then (zero, None)
          else match Decode (Body resp) with
               | Err err => (zero, Some err)
               | Ok createdNote => (createdNote, None)
               end), w')
    end
  end.

(** [func getNoteClient(id int64) (Note, error)]; at the 404 check
    [err] is the nil that [http.Get] returned. *)
Definition getNoteClient (id : Z) (w : W)
    : outcome (Note * option string) * W :=
  match Get (Sprintf (baseUrl ++ getPostfix) id) w with
  | (Err err, w') => (Fatal ("Failed to get note:" ++ err), w')
  | (Ok resp, w') =>
    (closing resp
       (if decide (StatusCode resp = StatusNotFound) then (zero, None)
        else if decide (StatusCode resp ≠ StatusOK)
        then (zero, Some ("failed to get note: "
                          ++ FormatInt (StatusCode resp))%string)
        else match Decode (Body resp) with
             | Err err => (zero, Some err)
             | Ok note => (note, None)
             end), w')
  end.

(** [func main()]: the Notes it logs, the created one and the one it
    got, unless it ends in [log.Fatal]. *)
Definition main (note : NoteInfo) (w : W) : outcome (list Note) * W :=
  match createNoteClient note w with
  | (Fatal msg, w') => (Fatal msg, w')
  | (Returns (_, Some err), w') => (Fatal ("failed to create note:" ++ err), w')
  | (Returns (created, None), w') =>
    match getNoteClient (ID created) w' with
    | (Fatal msg, w'') => (Fatal msg, w'')
    | (Returns (_, Some err), w'') =>
      (Fatal ("failed to get note:" ++ err), w'')
    | (Returns (got, None), w'') => (Returns [created; got], w'')
    end
  end.

End Calls.

(** *** The client in front of the server of [http_server/main.go] *)

(** The path of a URL on [baseUrl]. *)
Fixpoint stripPrefix (pre s : string) : option string :=
  match pre, s with
  | EmptyString, _ => Some s
  | String a pre', String b s' =>
    if Ascii.eqb a b then stripPrefix pre' s' else None
  | String _ _, EmptyString => None
  end.

Definition urlPath (url : string) : string :=
  default url (stripPrefix baseUrl url).

Section Against.

Variable seeded : Z → Z.

(** [time.Time] as [encoding/json] writes it, and what the decoder
    makes of a body that is the text of an error. *)
Variable formatTime : Time → string.
Variable decodeText : string → result string Note.

(** The JSON of a Note of the server read into the Note of the client:
    the field names are the same on both sides. *)
Definition decodeBody (b : payload) : result string Note :=
  match b with
  | JSONNote n =>
    let '(id, info, created, updated) := wire n in
    Ok {| ID := id; Info := info; CreatedAt := formatTime created;
          UpdatedAt := formatTime updated |}
  | Text s => decodeText s
  | NoBody => Err "EOF"
  end.

(** What the server reads around one request: the clock at lines 72
    and 73 and the outcome of its [Encode]. *)
Record ServerEnv := mkServerEnv {
  srvUnixNano : Z;
  srvNow : Time;
  srvEncodeErr : option string
}.

(** [http.Post] and [http.Get] answered by [ServeHTTP]; the body of
    the POST is the JSON of the NoteInfo, which the server decodes to
    the same NoteInfo. *)
Definition post (e : ServerEnv) (url : string) (data : NoteInfo)
    (m : SyncMap) : result string Response * SyncMap :=
  let '(w, m') :=
    ServeHTTP seeded
      (mkRequest "POST" (urlPath url)
         {| body := Ok data; unixNano := srvUnixNano e; now := srvNow e;
            encodeErr := srvEncodeErr e |}) m in
  (Ok (received w), m').

Definition get (e : ServerEnv) (url : string) (m : SyncMap)
    : result string Response * SyncMap :=
  let '(w, m') :=
    ServeHTTP seeded
      (mkRequest "GET" (urlPath url)
         {| body := Err "EOF"; unixNano := srvUnixNano e; now := srvNow e;
            encodeErr := srvEncodeErr e |}) m in
  (Ok (received w), m').

(** The client's [main] run against the server. *)
Definition mainAgainst (e1 e2 : ServerEnv) (note : NoteInfo) (m : SyncMap)
    : outcome (list Note) * SyncMap :=
  main SyncMap NoteInfo Ok (post e1) (get e2) decodeBody note m.

End Against.

End Client.

(** ** Running the goroutines to their end *)

(** The instructions the goroutines have left to run. *)
Definition remaining (ts : list Locking.thread) : nat :=
  sum_list (map (λ t, List.length (Locking.prog t)) ts).

(** Every handler has returned. *)
Definition finished (c : Locking.config) : Prop :=
  ∀ i t, Locking.threads c !! i = Some t → Locking.prog t = [].

(** A server with a goroutine of each of the two handlers of the
    source, after the Get has run first: it took the read lock, missed
    the Note and returned through its deferred unlock. *)
Definition sourceHandlers : list Locking.handler :=
  [Locking.HGet 7; Locking.HCreate Locking.sampleNote].

Definition afterMiss : Locking.config :=
  default (Locking.init sourceHandlers)
          (fst <$> Locking.run [0; 0; 0]%nat (Locking.init sourceHandlers)).

(** Every byte of the string is a decimal digit. *)
Fixpoint allDigits (s : string) : bool :=
  match s with
  | EmptyString => true
  | String c s' => bool_decide (is_Some (digit c)) && allDigits s'
  end.

(** * Properties *)

(** ** Parsing the identifier *)

Example ParseInt_examples :
  ParseInt "42" = Ok 42
  ∧ ParseInt "+7" = Ok 7
  ∧ ParseInt "-0" = Ok 0
  ∧ ParseInt "007" = Ok 7
  ∧ ParseInt "9223372036854775807" = Ok (2 ^ 63 - 1)
  ∧ ParseInt "-9223372036854775808" = Ok (- 2 ^ 63)
  ∧ ParseInt "9223372036854775808" = Err ErrRange
  ∧ ParseInt "-9223372036854775809" = Err ErrRange
  ∧ ParseInt "99999999999999999999999" = Err ErrRange
  ∧ ParseInt "" = Err ErrSyntax
  ∧ ParseInt "-" = Err ErrSyntax
  ∧ ParseInt "12a" = Err ErrSyntax
  ∧ ParseInt "1_000" = Err ErrSyntax
  ∧ ParseInt "%d" = Err ErrSyntax.
Proof. repeat split; reflexivity. Qed.

Lemma parseUintLoop_range (s : string) (n m : Z) :
  0 ≤ n → parseUintLoop s n = Ok m → n ≤ m ≤ maxUint64 ∨ (s = "" ∧ m = n).
Proof.
  revert n. induction s as [|c s IH]; intros n Hn H; simpl in H.
  - right. by injection H as <-.
  - left. destruct (digit c) as [d|] eqn:Hd; [|done].
    assert (0 ≤ d ≤ 9) as Hd9.
    { unfold digit in Hd.
      destruct ((48 <=? Z.of_N (N_of_ascii c)) && (Z.of_N (N_of_ascii c) <=? 57))
        eqn:Hc; [|done].
      apply andb_prop in Hc as [?%Z.leb_le ?%Z.leb_le].
      injection Hd as <-. lia. }
    destruct (maxUint64 / 10 + 1 <=? n); [done|].
    destruct (maxUint64 <? n * 10 + d) eqn:Hmax; [done|].
    apply Z.ltb_ge in Hmax.
    destruct (IH (n * 10 + d) ltac:(lia) H) as [?|[_ ->]]; lia.
Qed.

(** An identifier that parses is an [int64]. *)
Lemma parseNoteID_int64 (idStr : string) (id : Z) :
  parseNoteID idStr = Ok id → - 2 ^ 63 ≤ id < 2 ^ 63.
Proof.
  unfold parseNoteID, ParseInt.
  destruct idStr as [|c s]; [done|].
  set (neg := Ascii.eqb c "-").
  set (s1 := if Ascii.eqb c "+" || neg then s else String c s).
  destruct (ParseUint s1) as [un|[]] eqn:Hu; try done; cbv zeta.
  - assert (0 ≤ un) as Hun.
    { unfold ParseUint in Hu. destruct s1; [done|].
      destruct (parseUintLoop_range _ _ _ (Z.le_refl 0) Hu) as [?|[? ->]]; lia. }
    destruct neg; simpl.
    + destruct (2 ^ 63 <? un) eqn:Hc; [done|].
      apply Z.ltb_ge in Hc. intros [= <-]. lia.
    + destruct (2 ^ 63 <=? un) eqn:Hc; [done|].
      apply Z.leb_gt in Hc. intros [= <-]. lia.
  - destruct neg; simpl; done.
Qed.

(** ** Identifiers *)

Lemma Int63_range (seeded : Z → Z) (seed : Z) :
  0 ≤ Int63 seeded seed < 2 ^ 63.
Proof.
  unfold Int63, rngMask.
  replace (2 ^ 63 - 1) with (Z.ones 63) by reflexivity.
  rewrite Z.land_ones by lia.
  apply Z.mod_pos_bound. lia.
Qed.

Lemma newNote_ID_range (seeded : Z → Z) (r : CreateRequest) (info : NoteInfo) :
  0 ≤ ID (newNote seeded r info) < 2 ^ 63.
Proof. apply Int63_range. Qed.

(** What a successful [POST /notes] does, as one equation. *)
Lemma createNoteHandler_ok (seeded : Z → Z) (w : ResponseWriter)
    (r : CreateRequest) (m : SyncMap) (info : NoteInfo) :
  body r = Ok info →
  encodeErr r = None →
  createNoteHandler seeded w r m =
    (w ++ [HeaderSet "Content-Type" "application/json"]
       ++ [WriteHeader StatusCreated] ++ [Encode (newNote seeded r info)],
     {| elems := <[Int63 seeded (unixNano r) := newNote seeded r info]>
                   (elems m) |}).
Proof.
  intros Hb He. unfold createNoteHandler. rewrite Hb, He. simpl.
  by rewrite <- !app_assoc.
Qed.

(** C1, at the failing input: when the identifier drawn for a request is
    already a key of the map, [createNoteHandler] answers 201 with that
    identifier and replaces the Note stored under it; nothing is
    re-drawn. *)
Theorem createNoteHandler_collision_overwrites (seeded : Z → Z)
    (r : CreateRequest) (m : SyncMap) (info : NoteInfo) (old : Note) :
  body r = Ok info →
  encodeErr r = None →
  elems m !! Int63 seeded (unixNano r) = Some old →
  statusSent (createNoteHandler seeded [] r m).1 = Some StatusCreated
  ∧ ID <$> noteSent (createNoteHandler seeded [] r m).1
    = Some (Int63 seeded (unixNano r))
  ∧ elems (createNoteHandler seeded [] r m).2 !! Int63 seeded (unixNano r)
    = Some (newNote seeded r info)
  ∧ size (elems (createNoteHandler seeded [] r m).2) = size (elems m).
Proof.
  intros Hb He Hold.
  rewrite (createNoteHandler_ok _ _ _ _ info) by done.
  repeat split.
  - simpl. by rewrite lookup_insert_eq.
  - simpl. apply (inj S).
    rewrite <- (insert_delete_id (elems m) _ old) at 2 by done.
    rewrite <- insert_delete_eq.
    rewrite !map_size_insert_None by apply lookup_delete_eq. done.
Qed.

Lemma createNoteHandler_collision_overwrites_witness :
  let seeded := λ s : Z, s in
  let old := mkNote 7 (mkNoteInfo "A" "B" "C" true) 100 100 in
  let info := mkNoteInfo "X" "Y" "Z" false in
  let r := mkCreateRequest (Ok info) 7 200 None in
  let m := {| elems := {[ 7 := old ]} |} in
  (body r = Ok info ∧ encodeErr r = None
   ∧ elems m !! Int63 seeded (unixNano r) = Some old)
  ∧ statusSent (createNoteHandler seeded [] r m).1 = Some StatusCreated
  ∧ ID <$> noteSent (createNoteHandler seeded [] r m).1
    = Some (Int63 seeded (unixNano r))
  ∧ elems (createNoteHandler seeded [] r m).2 !! Int63 seeded (unixNano r)
    = Some (newNote seeded r info)
  ∧ size (elems (createNoteHandler seeded [] r m).2) = size (elems m).
Proof.
  cbv zeta. split; [by repeat split|].
  apply (createNoteHandler_collision_overwrites (λ s : Z, s)
           (mkCreateRequest (Ok (mkNoteInfo "X" "Y" "Z" false)) 7 200 None)
           {| elems := {[ 7 := mkNote 7 (mkNoteInfo "A" "B" "C" true)
                                      100 100 ]} |}
           (mkNoteInfo "X" "Y" "Z" false)
           (mkNote 7 (mkNoteInfo "A" "B" "C" true) 100 100)); reflexivity.
Defined.

(** The same on values: Note 7 of author C is gone, the new Note is
    stored under 7 and the map still has one entry. *)
Example collision_example :
  let old := mkNote 7 (mkNoteInfo "A" "B" "C" true) 100 100 in
  let info := mkNoteInfo "X" "Y" "Z" false in
  let r := mkCreateRequest (Ok info) 7 200 None in
  createNoteHandler (λ s, s) [] r {| elems := {[ 7 := old ]} |}
  = ([HeaderSet "Content-Type" "application/json";
      WriteHeader StatusCreated; Encode (mkNote 7 info 200 200)],
     {| elems := {[ 7 := mkNote 7 info 200 200 ]} |}).
Proof. reflexivity. Qed.

(** Two requests that read the same [UnixNano] seed the source alike, so
    the second is given the identifier of the first and takes its place. *)
Lemma createNoteHandler_same_seed (seeded : Z → Z) (m : SyncMap)
    (info1 info2 : NoteInfo) (s : Z) (t1 t2 : Time) :
  let r1 := mkCreateRequest (Ok info1) s t1 None in
  let r2 := mkCreateRequest (Ok info2) s t2 None in
  let m1 := (createNoteHandler seeded [] r1 m).2 in
  let m2 := (createNoteHandler seeded [] r2 m1).2 in
  ID (newNote seeded r1 info1) = ID (newNote seeded r2 info2)
  ∧ elems m1 !! Int63 seeded s = Some (newNote seeded r1 info1)
  ∧ elems m2 !! Int63 seeded s = Some (newNote seeded r2 info2).
Proof.
  intros r1 r2 m1 m2. subst m1 m2.
  rewrite (createNoteHandler_ok _ _ r1 _ info1) by done.
  rewrite (createNoteHandler_ok _ _ r2 _ info2) by done.
  simpl. by rewrite !lookup_insert_eq.
Qed.

(** ** The two handlers, case by case *)

Lemma createNoteHandler_bad_body (seeded : Z → Z) (w : ResponseWriter)
    (r : CreateRequest) (m : SyncMap) (err : string) :
  body r = Err err →
  createNoteHandler seeded w r m = (w ++ [Error err StatusBadRequest], m).
Proof. intros Hb. unfold createNoteHandler. by rewrite Hb. Qed.

Lemma createNoteHandler_encode_err (seeded : Z → Z) (w : ResponseWriter)
    (r : CreateRequest) (m : SyncMap) (info : NoteInfo) (err : string) :
  body r = Ok info →
  encodeErr r = Some err →
  createNoteHandler seeded w r m =
    (w ++ [HeaderSet "Content-Type" "application/json"]
       ++ [WriteHeader StatusCreated]
       ++ [Error err StatusInternalServerError], m).
Proof.
  intros Hb He. unfold createNoteHandler. rewrite Hb, He.
  by rewrite <- !app_assoc.
Qed.

Lemma getNoteHandler_store (w : ResponseWriter) (r : GetRequest) (m : SyncMap) :
  (getNoteHandler w r m).2 = m.
Proof.
  unfold getNoteHandler.
  destruct (parseNoteID _); [|done].
  destruct (elems m !! a); [|done].
  by destruct (getEncodeErr r).
Qed.

Lemma getNoteHandler_found (r : GetRequest) (m : SyncMap) (id : Z) (n : Note) :
  parseNoteID (idParam r) = Ok id →
  elems m !! id = Some n →
  getEncodeErr r = None →
  getNoteHandler [] r m =
    ([HeaderSet "Content-Type" "application/json"; Encode n], m).
Proof.
  intros Hp Hl He. unfold getNoteHandler. by rewrite Hp, Hl, He.
Qed.

Lemma getNoteHandler_status (r : GetRequest) (m : SyncMap) (id : Z) :
  parseNoteID (idParam r) = Ok id →
  statusSent (getNoteHandler [] r m).1 =
    match elems m !! id with
    | None => Some StatusNotFound
    | Some _ => Some StatusOK
    end.
Proof.
  intros Hp. unfold getNoteHandler. rewrite Hp.
  destruct (elems m !! id); [|done].
  by destruct (getEncodeErr r).
Qed.

(** [getPostfix] has no [{id}] in it, so [chi.URLParam(r, "id")] is
    empty for the requests [main] routes to the handler: nothing
    parses, and the handler answers 400 whatever the map holds. *)
Lemma getNoteHandler_no_param (m : SyncMap) (e : option string) :
  hasPlaceholder getPostfix = false
  ∧ getNoteHandler [] (mkGetRequest "" e) m =
      ([Error "Invalid note ID" StatusBadRequest], m).
Proof. split; reflexivity. Qed.

Lemma Create_notes (seeded : Z → Z) (r : CreateRequest) (st : Store) :
  notes (Create seeded r st).2 = (createNoteHandler seeded [] r (notes st)).2
  ∧ (Create seeded r st).1 = (createNoteHandler seeded [] r (notes st)).1.
Proof.
  unfold Create. by destruct (createNoteHandler seeded [] r (notes st)).
Qed.

Lemma Get_unfold (r : GetRequest) (st : Store) :
  Get r st = ((getNoteHandler [] r (notes st)).1, st).
Proof.
  unfold Get.
  pose proof (getNoteHandler_store [] r (notes st)) as H.
  destruct (getNoteHandler [] r (notes st)) as [w m]. simpl in *.
  subst m. by destruct st.
Qed.

(** ** Get after Create *)

(** C3: when Create has answered with a Note for the decoded [info], a
    Get for the identifier of that Note finds it, answers 200, and the
    Note it sends carries that identifier and exactly [info]. *)
Theorem Get_after_Create (seeded : Z → Z) (rc : CreateRequest)
    (rg : GetRequest) (st : Store) (info : NoteInfo) (id : Z) :
  body rc = Ok info →
  ID <$> noteSent (Create seeded rc st).1 = Some id →
  parseNoteID (idParam rg) = Ok id →
  getEncodeErr rg = None →
  ∃ n, noteSent (Get rg (Create seeded rc st).2).1 = Some n
       ∧ statusSent (Get rg (Create seeded rc st).2).1 = Some StatusOK
       ∧ ID n = id
       ∧ Info n = info
       ∧ Title (Info n) = Title info ∧ Context (Info n) = Context info
       ∧ Author (Info n) = Author info ∧ IsPublic (Info n) = IsPublic info.
Proof.
  intros Hb Hid Hp He.
  destruct (Create_notes seeded rc st) as [Hn Hw].
  rewrite Hw in Hid. rewrite Get_unfold. simpl. rewrite Hn.
  destruct (encodeErr rc) as [err|] eqn:Hc.
  - rewrite (createNoteHandler_encode_err _ _ _ _ info err) in Hid by done.
    discriminate.
  - rewrite (createNoteHandler_ok _ _ _ _ info) in * by done.
    simpl in Hid. injection Hid as <-.
    exists (newNote seeded rc info).
    rewrite (getNoteHandler_found rg _ (Int63 seeded (unixNano rc))
               (newNote seeded rc info)); try done.
    simpl. apply lookup_insert_eq.
Qed.

Lemma Get_after_Create_witness :
  let info := mkNoteInfo "A" "B" "C" true in
  let rc := mkCreateRequest (Ok info) 42 1000 None in
  let rg := mkGetRequest "42" None in
  (body rc = Ok info
   ∧ ID <$> noteSent (Create (λ s, s) rc store0).1 = Some 42
   ∧ parseNoteID (idParam rg) = Ok 42
   ∧ getEncodeErr rg = None)
  ∧ ∃ n, noteSent (Get rg (Create (λ s, s) rc store0).2).1 = Some n
       ∧ statusSent (Get rg (Create (λ s, s) rc store0).2).1 = Some StatusOK
       ∧ ID n = 42
       ∧ Info n = info
       ∧ Title (Info n) = Title info ∧ Context (Info n) = Context info
       ∧ Author (Info n) = Author info ∧ IsPublic (Info n) = IsPublic info.
Proof.
  cbv zeta. split; [by repeat split|].
  apply (Get_after_Create (λ s, s)
           (mkCreateRequest (Ok (mkNoteInfo "A" "B" "C" true)) 42 1000 None)
           (mkGetRequest "42" None) store0
           (mkNoteInfo "A" "B" "C" true) 42); reflexivity.
Defined.

(** ** A failed response encoding in Create *)

(** C10: when the encoding of the response fails, [createNoteHandler]
    returns with the map as it was; the status that went out is the 201
    written before the encoding, no Note was sent, and the Note built
    for the request is not stored by this call. *)
Theorem createNoteHandler_encode_failure (seeded : Z → Z)
    (r : CreateRequest) (m : SyncMap) (info : NoteInfo) (err : string) :
  body r = Ok info →
  encodeErr r = Some err →
  (createNoteHandler seeded [] r m).2 = m
  ∧ statusSent (createNoteHandler seeded [] r m).1 = Some StatusCreated
  ∧ noteSent (createNoteHandler seeded [] r m).1 = None
  ∧ failed (createNoteHandler seeded [] r m).1 = true
  ∧ (elems m !! ID (newNote seeded r info) = None →
     elems (createNoteHandler seeded [] r m).2 !! ID (newNote seeded r info)
       = None).
Proof.
  intros Hb He.
  rewrite (createNoteHandler_encode_err _ _ _ _ info err) by done.
  by repeat split.
Qed.

Lemma createNoteHandler_encode_failure_witness :
  let info := mkNoteInfo "A" "B" "C" true in
  let r := mkCreateRequest (Ok info) 42 1000 (Some "broken pipe") in
  (body r = Ok info ∧ encodeErr r = Some "broken pipe")
  ∧ (createNoteHandler (λ s, s) [] r notes0).2 = notes0
  ∧ statusSent (createNoteHandler (λ s, s) [] r notes0).1 = Some StatusCreated
  ∧ noteSent (createNoteHandler (λ s, s) [] r notes0).1 = None
  ∧ failed (createNoteHandler (λ s, s) [] r notes0).1 = true
  ∧ (elems notes0 !! ID (newNote (λ s, s) r info) = None →
     elems (createNoteHandler (λ s, s) [] r notes0).2
       !! ID (newNote (λ s, s) r info) = None).
Proof.
  cbv zeta. split; [by split|].
  apply (createNoteHandler_encode_failure (λ s, s)
           (mkCreateRequest (Ok (mkNoteInfo "A" "B" "C" true)) 42 1000
              (Some "broken pipe"))
           notes0 (mkNoteInfo "A" "B" "C" true) "broken pipe"); reflexivity.
Defined.

(** The other direction: the map changes only on the path where the
    response was encoded. *)
Lemma createNoteHandler_stores_after_encode (seeded : Z → Z)
    (r : CreateRequest) (m : SyncMap) :
  (createNoteHandler seeded [] r m).2 ≠ m →
  encodeErr r = None
  ∧ ∃ n, noteSent (createNoteHandler seeded [] r m).1 = Some n
         ∧ elems (createNoteHandler seeded [] r m).2 !! ID n = Some n.
Proof.
  intros Hne. destruct (body r) as [info|e] eqn:Hb.
  - destruct (encodeErr r) as [err|] eqn:He.
    + rewrite (createNoteHandler_encode_err _ _ _ _ info err) in Hne by done.
      done.
    + split; [done|]. exists (newNote seeded r info).
      rewrite (createNoteHandler_ok _ _ _ _ info) by done.
      split; [done|]. simpl. apply lookup_insert_eq.
  - rewrite (createNoteHandler_bad_body _ _ _ _ e) in Hne by done. done.
Qed.

(** ** Update and Delete *)

Lemma Update_found (id : Z) (p : UpdateNoteInfo) (t : Time) (st : Store)
    (n : Note) :
  elems (notes st) !! id = Some n →
  Update id p t st =
    (Ok (mkNote (ID n) (applyPatch p (Info n)) (CreatedAt n) t),
     {| notes := {| elems := <[id := mkNote (ID n) (applyPatch p (Info n))
                                      (CreatedAt n) t]> (elems (notes st)) |};
        order := order st |}).
Proof. intros H. unfold Update. by rewrite H. Qed.

Lemma Update_missing (id : Z) (p : UpdateNoteInfo) (t : Time) (st : Store) :
  elems (notes st) !! id = None →
  Update id p t st = (Err NotFound, st).
Proof. intros H. unfold Update. by rewrite H. Qed.

Lemma Delete_found (id : Z) (st : Store) (n : Note) :
  elems (notes st) !! id = Some n →
  Delete id st =
    (Ok tt, {| notes := {| elems := delete id (elems (notes st)) |};
               order := filter (λ k, k ≠ id) (order st) |}).
Proof. intros H. unfold Delete. by rewrite H. Qed.

Lemma Delete_missing (id : Z) (st : Store) :
  elems (notes st) !! id = None →
  Delete id st = (Err NotFound, st).
Proof. intros H. unfold Delete. by rewrite H. Qed.

Lemma applyPatch_noPatch (info : NoteInfo) : applyPatch noPatch info = info.
Proof. by destruct info. Qed.

(** C2: Update of a stored Note rewrites exactly the fields whose patch
    entry is present and keeps the others; a present [false] for
    [is_public] is written, an absent entry keeps a [true]. *)
Theorem Update_patch_semantics (id : Z) (p : UpdateNoteInfo) (t : Time)
    (st : Store) (n : Note) :
  elems (notes st) !! id = Some n →
  ∃ n', (Update id p t st).1 = Ok n'
    ∧ elems (notes (Update id p t st).2) !! id = Some n'
    ∧ (∀ v, title p = Some v → Title (Info n') = v)
    ∧ (title p = None → Title (Info n') = Title (Info n))
    ∧ (∀ v, context p = Some v → Context (Info n') = v)
    ∧ (context p = None → Context (Info n') = Context (Info n))
    ∧ (∀ v, author p = Some v → Author (Info n') = v)
    ∧ (author p = None → Author (Info n') = Author (Info n))
    ∧ (∀ v, is_public p = Some v → IsPublic (Info n') = v)
    ∧ (is_public p = None → IsPublic (Info n') = IsPublic (Info n))
    ∧ (is_public p = Some false → IsPublic (Info n') = false)
    ∧ (is_public p = None → IsPublic (Info n) = true →
       IsPublic (Info n') = true).
Proof.
  intros Hn. rewrite (Update_found _ _ _ _ n) by done. simpl.
  eexists. split; [done|]. split; [apply lookup_insert_eq|]. simpl.
  repeat split; try (intros ? ->; done); try (intros ->; done).
Qed.

Lemma Update_patch_semantics_witness :
  let n := mkNote 7 (mkNoteInfo "A" "B" "C" true) 100 100 in
  let st := {| notes := {| elems := {[ 7 := n ]} |}; order := [7] |} in
  let p := mkUpdateNoteInfo None (Some "Z") None (Some false) in
  elems (notes st) !! 7 = Some n
  ∧ ∃ n', (Update 7 p 200 st).1 = Ok n'
    ∧ elems (notes (Update 7 p 200 st).2) !! 7 = Some n'
    ∧ (∀ v, title p = Some v → Title (Info n') = v)
    ∧ (title p = None → Title (Info n') = Title (Info n))
    ∧ (∀ v, context p = Some v → Context (Info n') = v)
    ∧ (context p = None → Context (Info n') = Context (Info n))
    ∧ (∀ v, author p = Some v → Author (Info n') = v)
    ∧ (author p = None → Author (Info n') = Author (Info n))
    ∧ (∀ v, is_public p = Some v → IsPublic (Info n') = v)
    ∧ (is_public p = None → IsPublic (Info n') = IsPublic (Info n))
    ∧ (is_public p = Some false → IsPublic (Info n') = false)
    ∧ (is_public p = None → IsPublic (Info n) = true →
       IsPublic (Info n') = true).
Proof.
  split; [reflexivity|].
  apply (Update_patch_semantics 7
           (mkUpdateNoteInfo None (Some "Z") None (Some false)) 200
           {| notes := {| elems := {[ 7 := mkNote 7 (mkNoteInfo "A" "B" "C" true)
                                              100 100 ]} |};
              order := [7] |}
           (mkNote 7 (mkNoteInfo "A" "B" "C" true) 100 100)).
  reflexivity.
Defined.

(** The example of the spec, evaluated. *)
Example Update_patch_example :
  let n := mkNote 7 (mkNoteInfo "A" "B" "C" true) 100 100 in
  let st := {| notes := {| elems := {[ 7 := n ]} |}; order := [7] |} in
  (Update 7 (mkUpdateNoteInfo None (Some "Z") None None) 200 st).1
    = Ok (mkNote 7 (mkNoteInfo "A" "Z" "C" true) 100 200)
  ∧ (Update 7 (mkUpdateNoteInfo None None None (Some false)) 200 st).1
    = Ok (mkNote 7 (mkNoteInfo "A" "B" "C" false) 100 200).
Proof. split; reflexivity. Qed.

(** C5: a successful Update stamps the Note with the time it read and
    returns the Note as it is stored afterwards, also for the patch with
    no entry present; on an identifier the store does not hold it fails
    with NotFound. *)
Theorem Update_refreshes_updatedAt (id : Z) (p : UpdateNoteInfo) (t : Time)
    (st : Store) :
  (∀ n, elems (notes st) !! id = Some n →
     ∃ n', (Update id p t st).1 = Ok n'
       ∧ UpdatedAt n' = t
       ∧ elems (notes (Update id p t st).2) !! id = Some n'
       ∧ Info n' = applyPatch p (Info n)
       ∧ ID n' = ID n ∧ CreatedAt n' = CreatedAt n)
  ∧ (∀ n, elems (notes st) !! id = Some n →
     ∃ n', (Update id noPatch t st).1 = Ok n'
       ∧ UpdatedAt n' = t
       ∧ elems (notes (Update id noPatch t st).2) !! id = Some n'
       ∧ Info n' = Info n)
  ∧ (elems (notes st) !! id = None →
     (Update id p t st).1 = Err NotFound).
Proof.
  split; [|split].
  - intros n Hn. rewrite (Update_found _ _ _ _ n) by done. simpl.
    eexists. split; [done|]. split; [done|].
    split; [apply lookup_insert_eq|done].
  - intros n Hn. rewrite (Update_found _ _ _ _ n) by done. simpl.
    eexists. split; [done|]. split; [done|].
    split; [apply lookup_insert_eq|]. apply applyPatch_noPatch.
  - intros Hn. by rewrite Update_missing.
Qed.

Lemma Update_refreshes_updatedAt_witness :
  let n := mkNote 7 (mkNoteInfo "A" "B" "C" true) 100 100 in
  let st := {| notes := {| elems := {[ 7 := n ]} |}; order := [7] |} in
  (∃ n', (Update 7 noPatch 200 st).1 = Ok n'
       ∧ UpdatedAt n' = 200
       ∧ elems (notes (Update 7 noPatch 200 st).2) !! 7 = Some n'
       ∧ Info n' = Info n)
  ∧ (Update 8 noPatch 200 st).1 = Err NotFound.
Proof.
  split.
  - apply (proj1 (proj2 (Update_refreshes_updatedAt 7 noPatch 200
       {| notes := {| elems := {[ 7 := mkNote 7 (mkNoteInfo "A" "B" "C" true)
                                          100 100 ]} |};
          order := [7] |}))).
    reflexivity.
  - apply (proj2 (proj2 (Update_refreshes_updatedAt 8 noPatch 200
       {| notes := {| elems := {[ 7 := mkNote 7 (mkNoteInfo "A" "B" "C" true)
                                          100 100 ]} |};
          order := [7] |}))).
    reflexivity.
Defined.

(** ** NotFound *)

(** C6: Get answers NotFound exactly when the map has no Note under the
    identifier; once Delete has succeeded, Get on that identifier
    answers NotFound and a second Delete fails with NotFound, leaving
    the store as it is. *)
Theorem Get_NotFound_Delete_terminal (r : GetRequest) (id : Z) (st : Store) :
  parseNoteID (idParam r) = Ok id →
  (statusSent (Get r st).1 = Some StatusNotFound
   ↔ elems (notes st) !! id = None)
  ∧ (∀ st', Delete id st = (Ok tt, st') →
       statusSent (Get r st').1 = Some StatusNotFound
       ∧ noteSent (Get r st').1 = None
       ∧ Delete id st' = (Err NotFound, st')).
Proof.
  intros Hp. split.
  - rewrite Get_unfold. simpl. rewrite (getNoteHandler_status _ _ id) by done.
    destruct (elems (notes st) !! id); [|done].
    by destruct (getEncodeErr r).
  - intros st' Hd.
    assert (elems (notes st') !! id = None) as Hgone.
    { unfold Delete in Hd. destruct (elems (notes st) !! id); [|done].
      injection Hd as <-. simpl. apply lookup_delete_eq. }
    rewrite Get_unfold. simpl.
    rewrite (getNoteHandler_status _ _ id) by done.
    unfold getNoteHandler. rewrite Hp, Hgone.
    by rewrite Delete_missing.
Qed.

Lemma Get_NotFound_Delete_terminal_witness :
  let n := mkNote 7 (mkNoteInfo "A" "B" "C" true) 100 100 in
  let st := {| notes := {| elems := {[ 7 := n ]} |}; order := [7] |} in
  let r := mkGetRequest "7" None in
  parseNoteID (idParam r) = Ok 7
  ∧ (statusSent (Get r st).1 = Some StatusNotFound
     ↔ elems (notes st) !! 7 = None)
  ∧ (∀ st', Delete 7 st = (Ok tt, st') →
       statusSent (Get r st').1 = Some StatusNotFound
       ∧ noteSent (Get r st').1 = None
       ∧ Delete 7 st' = (Err NotFound, st')).
Proof.
  split; [reflexivity|].
  apply (Get_NotFound_Delete_terminal (mkGetRequest "7" None) 7
           {| notes := {| elems := {[ 7 := mkNote 7 (mkNoteInfo "A" "B" "C" true)
                                              100 100 ]} |};
              order := [7] |}).
  reflexivity.
Defined.

(** ** All-or-nothing *)

(** C8: an operation that reports an error leaves the store exactly as
    it found it; a Create whose body does not decode is such an
    operation. *)
Theorem serve_error_leaves_store (seeded : Z → Z) (q : request) (st : Store) :
  errored (serve seeded q st).1 = true →
  (serve seeded q st).2 = st
  ∧ (∀ r e, q = ReqCreate r → body r = Err e →
       elems (notes (serve seeded q st).2) = elems (notes st)
       ∧ stored (serve seeded q st).2 = stored st).
Proof.
  intros He.
  assert ((serve seeded q st).2 = st) as Hst.
  { destruct q as [r|r|limit offset|id p t|id]; simpl in *.
    - unfold Create in *.
      destruct (body r) as [info|e] eqn:Hb.
      + destruct (encodeErr r) as [err|] eqn:Hc.
        * rewrite (createNoteHandler_encode_err _ _ _ _ info err) by done.
          simpl. rewrite decide_False; [by destruct st|].
          intros [H1 H2]. rewrite H1 in H2. by destruct H2.
        * rewrite (createNoteHandler_ok _ _ _ _ info) in He by done.
          simpl in He. discriminate.
      + rewrite (createNoteHandler_bad_body _ _ _ _ e) by done.
        simpl. rewrite decide_False; [by destruct st|].
        intros [H1 H2]. rewrite H1 in H2. by destruct H2.
    - by rewrite Get_unfold.
    - done.
    - unfold Update in *. by destruct (elems (notes st) !! id).
    - unfold Delete in *. by destruct (elems (notes st) !! id). }
  split; [done|]. intros r e -> Hb. by rewrite Hst.
Qed.

Lemma serve_error_leaves_store_witness :
  let q := ReqCreate (mkCreateRequest (Err "unexpected EOF") 42 1000 None) in
  let n := mkNote 7 (mkNoteInfo "A" "B" "C" true) 100 100 in
  let st := {| notes := {| elems := {[ 7 := n ]} |}; order := [7] |} in
  errored (serve (λ s, s) q st).1 = true
  ∧ (serve (λ s, s) q st).2 = st.
Proof.
  split; [reflexivity|].
  apply (serve_error_leaves_store (λ s, s)
           (ReqCreate (mkCreateRequest (Err "unexpected EOF") 42 1000 None))
           {| notes := {| elems := {[ 7 := mkNote 7 (mkNoteInfo "A" "B" "C" true)
                                              100 100 ]} |};
              order := [7] |}).
  reflexivity.
Defined.

(** ** Timestamps *)

(** The store an operation leaves, operation by operation. *)
Lemma serve_store (seeded : Z → Z) (q : request) (st : Store) :
  (serve seeded q st).2 =
    match q with
    | ReqCreate r => (Create seeded r st).2
    | ReqGet _ | ReqList _ _ => st
    | ReqUpdate id p t => (Update id p t st).2
    | ReqDelete id => (Delete id st).2
    end.
Proof.
  destruct q as [r|r|limit offset|id p t|id]; simpl.
  - by destruct (Create seeded r st).
  - by rewrite Get_unfold.
  - done.
  - by destruct (Update id p t st).
  - by destruct (Delete id st).
Qed.

Lemma step_timesOrdered (seeded : Z → Z) (w w' : World) :
  step seeded w w' → timesOrdered w → timesOrdered w'.
Proof.
  intros [q w0 Hclock] Hinv. unfold timesOrdered in *.
  cbn [store clock]. rewrite serve_store.
  destruct q as [r|r|limit offset|id p t|id]; simpl in *;
    [| done | done | |].
  - specialize (Hclock _ eq_refl).
    destruct (Create_notes seeded r (store w0)) as [-> _].
    destruct (body r) as [info|e] eqn:Hb;
      [destruct (encodeErr r) as [err|] eqn:Hc|].
    + rewrite (createNoteHandler_encode_err _ _ _ _ info err) by done.
      simpl. intros k n Hn. specialize (Hinv k n Hn). simpl in Hinv. lia.
    + rewrite (createNoteHandler_ok _ _ _ _ info) by done. simpl.
      apply map_Forall_insert_2; [simpl; lia|].
      intros k n Hn. specialize (Hinv k n Hn). simpl in Hinv. lia.
    + rewrite (createNoteHandler_bad_body _ _ _ _ e) by done.
      simpl. intros k n Hn. specialize (Hinv k n Hn). simpl in Hinv. lia.
  - specialize (Hclock _ eq_refl). unfold Update.
    destruct (elems (notes (store w0)) !! id) as [n|] eqn:Hn; simpl.
    + pose proof (Hinv id n Hn) as Hold. simpl in Hold.
      apply map_Forall_insert_2; [simpl; lia|].
      intros k n' Hn'. specialize (Hinv k n' Hn'). simpl in Hinv. lia.
    + intros k n' Hn'. specialize (Hinv k n' Hn'). simpl in Hinv. lia.
  - unfold Delete.
    destruct (elems (notes (store w0)) !! id) as [n|] eqn:Hn; simpl; [|done].
    by apply map_Forall_delete.
Qed.

Lemma reachable_timesOrdered (seeded : Z → Z) (w : World) :
  reachable seeded w → timesOrdered w.
Proof.
  induction 1 as [t0|w w' _ IH Hstep].
  - unfold timesOrdered. simpl. apply map_Forall_empty.
  - by eapply step_timesOrdered.
Qed.

(** C4: Create stamps [CreatedAt] and [UpdatedAt] with the one reading
    it took of the clock, and in every reachable world every stored
    Note has [UpdatedAt] no smaller than [CreatedAt]. *)
Theorem updatedAt_ge_createdAt (seeded : Z → Z) (w : World) (id : Z)
    (n : Note) :
  reachable seeded w →
  elems (notes (store w)) !! id = Some n →
  CreatedAt n ≤ UpdatedAt n
  ∧ (∀ r info, CreatedAt (newNote seeded r info) = now r
               ∧ UpdatedAt (newNote seeded r info) = now r).
Proof.
  intros Hr Hn. split; [|done].
  pose proof (reachable_timesOrdered seeded w Hr id n Hn) as H.
  simpl in H. lia.
Qed.

Lemma reachable_serve (seeded : Z → Z) (w w' : World) (q : request) :
  reachable seeded w →
  (∀ t, reads q = Some t → clock w ≤ t) →
  w' = {| store := (serve seeded q (store w)).2;
          clock := default (clock w) (reads q) |} →
  reachable seeded w'.
Proof.
  intros Hr Hc ->. eapply reachable_step; [exact Hr|]. by constructor.
Qed.

Lemma sampleWorld_reachable : reachable (λ s, s) sampleWorld.
Proof.
  apply (reachable_serve (λ s, s)
           {| store := (Create (λ s, s)
                          (mkCreateRequest (Ok sampleInfo) 42 100 None)
                          store0).2;
              clock := 100 |} _ (ReqUpdate 42 noPatch 250)).
  - apply (reachable_serve (λ s, s) {| store := store0; clock := 0 |} _
             (ReqCreate (mkCreateRequest (Ok sampleInfo) 42 100 None))).
    + apply reachable_init.
    + simpl. intros t [= <-]. lia.
    + reflexivity.
  - simpl. intros t [= <-]. lia.
  - reflexivity.
Qed.

Lemma updatedAt_ge_createdAt_witness :
  elems (notes (store sampleWorld)) !! 42 = Some (mkNote 42 sampleInfo 100 250)
  ∧ CreatedAt (mkNote 42 sampleInfo 100 250)
      ≤ UpdatedAt (mkNote 42 sampleInfo 100 250).
Proof.
  split; [reflexivity|].
  apply (updatedAt_ge_createdAt (λ s, s) sampleWorld 42
           (mkNote 42 sampleInfo 100 250)).
  - apply sampleWorld_reachable.
  - reflexivity.
Defined.

(** ** Insertion order and List *)

Lemma omap_lookup_ext (m1 m2 : gmap Z Note) (l : list Z) :
  (∀ k, k ∈ l → m1 !! k = m2 !! k) →
  omap (λ id, m1 !! id) l = omap (λ id, m2 !! id) l.
Proof.
  induction l as [|k l IH]; intros H; [done|]. csimpl.
  rewrite (H k) by apply list_elem_of_here.
  rewrite IH; [done|]. intros k' Hk'. apply H. by apply list_elem_of_further.
Qed.

Lemma omap_lookup_length (m : gmap Z Note) (l : list Z) :
  (∀ k, k ∈ l → is_Some (m !! k)) →
  List.length (omap (λ id, m !! id) l) = List.length l.
Proof.
  induction l as [|k l IH]; intros H; [done|]. csimpl.
  destruct (H k) as [n ->]; [apply list_elem_of_here|]. csimpl.
  f_equal. apply IH. intros k' Hk'. apply H. by apply list_elem_of_further.
Qed.

Lemma stored_length (st : Store) :
  orderTracks st → List.length (stored st) = size (elems (notes st)).
Proof.
  intros [Hnd Hdom]. unfold stored.
  rewrite omap_lookup_length by (intros k Hk; by apply Hdom).
  rewrite <- (size_dom (D := gset Z)).
  rewrite <- (size_list_to_set (C := gset Z) (order st)) by done.
  f_equal. apply set_eq. intros k.
  rewrite elem_of_dom, elem_of_list_to_set. by rewrite Hdom.
Qed.

Lemma orderTracks_store0 : orderTracks store0.
Proof.
  split; [constructor|]. intros k. simpl. rewrite lookup_empty.
  split; [by intros ?%elem_of_nil|by intros [? ?]].
Qed.

(** A Create that succeeds on an identifier the map does not hold. *)
Lemma Create_fresh (seeded : Z → Z) (r : CreateRequest) (st : Store)
    (info : NoteInfo) :
  body r = Ok info →
  encodeErr r = None →
  elems (notes st) !! Int63 seeded (unixNano r) = None →
  (Create seeded r st).2 =
    {| notes := {| elems := <[Int63 seeded (unixNano r) :=
                               newNote seeded r info]> (elems (notes st)) |};
       order := order st ++ [Int63 seeded (unixNano r)] |}.
Proof.
  intros Hb He Hnone. unfold Create.
  rewrite (createNoteHandler_ok _ _ _ _ info) by done. simpl.
  rewrite decide_True; [done|].
  split; [done|]. rewrite lookup_insert_eq. by eexists.
Qed.

(** A Create that succeeds on an identifier the map already holds. *)
Lemma Create_taken (seeded : Z → Z) (r : CreateRequest) (st : Store)
    (info : NoteInfo) :
  body r = Ok info →
  encodeErr r = None →
  is_Some (elems (notes st) !! Int63 seeded (unixNano r)) →
  (Create seeded r st).2 =
    {| notes := {| elems := <[Int63 seeded (unixNano r) :=
                               newNote seeded r info]> (elems (notes st)) |};
       order := order st |}.
Proof.
  intros Hb He [old Hold]. unfold Create.
  rewrite (createNoteHandler_ok _ _ _ _ info) by done. simpl.
  rewrite decide_False; [done|].
  intros [H _]. by rewrite H in Hold.
Qed.

Lemma Create_failed (seeded : Z → Z) (r : CreateRequest) (st : Store) :
  (∃ e, body r = Err e) ∨ is_Some (encodeErr r) →
  (Create seeded r st).2 = st.
Proof.
  intros H. unfold Create.
  destruct (body r) as [info|e] eqn:Hb.
  - destruct H as [[e H]|[err H]]; [done|].
    rewrite (createNoteHandler_encode_err _ _ _ _ info err) by done. simpl.
    rewrite decide_False; [by destruct st|].
    intros [H1 [x H2]]. by rewrite H1 in H2.
  - rewrite (createNoteHandler_bad_body _ _ _ _ e) by done. simpl.
    rewrite decide_False; [by destruct st|].
    intros [H1 [x H2]]. by rewrite H1 in H2.
Qed.

Lemma Create_orderTracks (seeded : Z → Z) (r : CreateRequest) (st : Store) :
  orderTracks st → orderTracks (Create seeded r st).2.
Proof.
  intros [Hnd Hdom].
  destruct (body r) as [info|e] eqn:Hb;
    [destruct (encodeErr r) as [err|] eqn:He|].
  - rewrite Create_failed; [done|]. right. by eexists.
  - destruct (elems (notes st) !! Int63 seeded (unixNano r)) as [old|] eqn:Hk.
    + rewrite (Create_taken _ _ _ info) by (by try eexists).
      split; [done|]. intros k. simpl. rewrite Hdom.
      destruct (decide (Int63 seeded (unixNano r) = k)) as [<-|Hne].
      * rewrite lookup_insert_eq, Hk. split; by eexists.
      * by rewrite lookup_insert_ne.
    + rewrite (Create_fresh _ _ _ info) by done.
      split; simpl.
      * apply NoDup_app. split; [done|]. split; [|apply NoDup_singleton].
        intros k Hin ->%list_elem_of_singleton.
        apply Hdom in Hin. rewrite Hk in Hin. by destruct Hin.
      * intros k. rewrite elem_of_app, list_elem_of_singleton, Hdom.
        destruct (decide (Int63 seeded (unixNano r) = k)) as [<-|Hne].
        -- rewrite lookup_insert_eq. split; [by eexists|by right].
        -- rewrite lookup_insert_ne by done. split; [|by left].
           intros [H| ->]; done.
  - rewrite Create_failed; [done|]. left. by eexists.
Qed.

Lemma Update_orderTracks (id : Z) (p : UpdateNoteInfo) (t : Time) (st : Store) :
  orderTracks st → orderTracks (Update id p t st).2.
Proof.
  intros [Hnd Hdom]. unfold Update.
  destruct (elems (notes st) !! id) as [n|] eqn:Hn; [|done].
  split; [done|]. intros k. simpl. rewrite Hdom.
  destruct (decide (id = k)) as [<-|Hne].
  - rewrite lookup_insert_eq, Hn. split; by eexists.
  - by rewrite lookup_insert_ne.
Qed.

Lemma Delete_orderTracks (id : Z) (st : Store) :
  orderTracks st → orderTracks (Delete id st).2.
Proof.
  intros [Hnd Hdom]. unfold Delete.
  destruct (elems (notes st) !! id) as [n|] eqn:Hn; [|done].
  split; simpl; [by apply NoDup_filter|].
  intros k. rewrite list_elem_of_filter, Hdom.
  destruct (decide (id = k)) as [<-|Hne].
  - rewrite lookup_delete_eq. split; [by intros [? _]|by intros [? ?]].
  - rewrite lookup_delete_ne by done. split; [by intros [_ ?]|done].
Qed.

Lemma reachable_orderTracks (seeded : Z → Z) (w : World) :
  reachable seeded w → orderTracks (store w).
Proof.
  induction 1 as [t0|w w' _ IH Hstep]; [apply orderTracks_store0|].
  destruct Hstep as [q w _]. cbn [store]. rewrite serve_store.
  destruct q as [r|r|limit offset|id p t|id]; try done.
  - by apply Create_orderTracks.
  - by apply Update_orderTracks.
  - by apply Delete_orderTracks.
Qed.

(** A Note stored under a new identifier goes to the end of the
    sequence List reads. *)
Lemma Create_appends (seeded : Z → Z) (r : CreateRequest) (st : Store)
    (info : NoteInfo) :
  orderTracks st →
  body r = Ok info →
  encodeErr r = None →
  elems (notes st) !! Int63 seeded (unixNano r) = None →
  stored (Create seeded r st).2 = stored st ++ [newNote seeded r info].
Proof.
  intros [Hnd Hdom] Hb He Hk.
  rewrite (Create_fresh _ _ _ info) by done. unfold stored. simpl.
  rewrite omap_app. csimpl. rewrite lookup_insert_eq. csimpl. f_equal.
  apply omap_lookup_ext. intros k Hin.
  apply lookup_insert_ne. intros <-.
  apply Hdom in Hin. rewrite Hk in Hin. by destruct Hin.
Qed.

(** Update keeps every Note at its place in the sequence. *)
Lemma Update_keeps_order (id : Z) (p : UpdateNoteInfo) (t : Time) (st : Store) :
  order (Update id p t st).2 = order st.
Proof. unfold Update. by destruct (elems (notes st) !! id). Qed.

Lemma List_lookup (limit offset : Z) (st : Store) (i : nat) :
  List limit offset st !! i =
    if decide (i < Z.to_nat limit)%nat
    then stored st !! (Z.to_nat offset + i)%nat
    else None.
Proof.
  unfold List. case_decide.
  - rewrite lookup_take_lt by done. apply lookup_drop.
  - apply lookup_take_ge. lia.
Qed.

Lemma List_length (limit offset : Z) (st : Store) :
  List.length (List limit offset st) =
    (Z.to_nat limit `min` (List.length (stored st) - Z.to_nat offset))%nat.
Proof. unfold List. by rewrite length_take, length_drop. Qed.

(** Three Notes created in a row on the empty store, under three
    different identifiers. *)
Lemma stored_three (seeded : Z → Z) (ra rb rc : CreateRequest)
    (a b c : NoteInfo) :
  body ra = Ok a → body rb = Ok b → body rc = Ok c →
  encodeErr ra = None → encodeErr rb = None → encodeErr rc = None →
  Int63 seeded (unixNano ra) ≠ Int63 seeded (unixNano rb) →
  Int63 seeded (unixNano ra) ≠ Int63 seeded (unixNano rc) →
  Int63 seeded (unixNano rb) ≠ Int63 seeded (unixNano rc) →
  stored (Create seeded rc (Create seeded rb (Create seeded ra store0).2).2).2
  = [newNote seeded ra a; newNote seeded rb b; newNote seeded rc c].
Proof.
  intros Ha Hb Hc Ea Eb Ec Hab Hac Hbc.
  assert (elems (notes (Create seeded ra store0).2)
          = {[ Int63 seeded (unixNano ra) := newNote seeded ra a ]}) as H1.
  { by rewrite (Create_fresh _ _ _ a). }
  assert (elems (notes (Create seeded rb (Create seeded ra store0).2).2)
          = <[Int63 seeded (unixNano rb) := newNote seeded rb b]>
              {[ Int63 seeded (unixNano ra) := newNote seeded ra a ]}) as H2.
  { rewrite (Create_fresh _ _ _ b); try done; [|rewrite H1].
    - simpl. by rewrite H1.
    - by apply lookup_singleton_ne. }
  rewrite (Create_appends _ _ _ c); try done.
  - rewrite (Create_appends _ _ _ b); try done.
    + rewrite (Create_appends _ _ _ a); try done.
      apply orderTracks_store0.
    + apply Create_orderTracks, orderTracks_store0.
    + rewrite H1. by apply lookup_singleton_ne.
  - apply Create_orderTracks, Create_orderTracks, orderTracks_store0.
  - rewrite H2. rewrite lookup_insert_ne by done.
    by apply lookup_singleton_ne.
Qed.

(** When every Create draws an identifier the map does not hold, List
    reads the stored Notes oldest insertion first, skips [offset] of
    them and returns at most [limit]; a Note stored under a new
    identifier is the last of the sequence; an offset at or beyond the
    number of stored Notes gives the empty sequence; and after Notes A,
    B, C were created in that order on the empty store under three
    different identifiers, [List 1 1] is exactly B and [List 10 5] is
    empty. *)
Lemma List_new_identifiers (seeded : Z → Z) (w : World) (limit offset : Z) :
  reachable seeded w →
  (∀ i : nat,
     List limit offset (store w) !! i =
       if decide (i < Z.to_nat limit)%nat
       then stored (store w) !! (Z.to_nat offset + i)%nat
       else None)
  ∧ (List.length (List limit offset (store w)) ≤ Z.to_nat limit)%nat
  ∧ (Z.of_nat (size (elems (notes (store w)))) ≤ offset →
     List limit offset (store w) = [])
  ∧ (∀ r info,
       body r = Ok info → encodeErr r = None →
       elems (notes (store w)) !! Int63 seeded (unixNano r) = None →
       stored (Create seeded r (store w)).2
         = stored (store w) ++ [newNote seeded r info])
  ∧ (∀ ra rb rc a b c,
       body ra = Ok a → body rb = Ok b → body rc = Ok c →
       encodeErr ra = None → encodeErr rb = None → encodeErr rc = None →
       Int63 seeded (unixNano ra) ≠ Int63 seeded (unixNano rb) →
       Int63 seeded (unixNano ra) ≠ Int63 seeded (unixNano rc) →
       Int63 seeded (unixNano rb) ≠ Int63 seeded (unixNano rc) →
       List 1 1 (Create seeded rc
                   (Create seeded rb (Create seeded ra store0).2).2).2
         = [newNote seeded rb b]
       ∧ List 10 5 (Create seeded rc
                      (Create seeded rb (Create seeded ra store0).2).2).2
         = []).
Proof.
  intros Hr. pose proof (reachable_orderTracks seeded w Hr) as Hord.
  split; [|split; [|split; [|split]]].
  - intros i. apply List_lookup.
  - rewrite List_length. lia.
  - intros Hoff. unfold List. rewrite drop_ge; [apply take_nil|].
    rewrite stored_length by done. lia.
  - intros r info Hb He Hk. by apply Create_appends.
  - intros ra rb rc a b c Ha Hb Hc Ea Eb Ec Hab Hac Hbc.
    unfold List. by rewrite (stored_three seeded ra rb rc a b c).
Qed.




Example List_new_identifiers_sample :
  reachable (λ s, s) sampleWorld
  ∧ List 10 5 (store sampleWorld) = []
  ∧ List 1 0 (store sampleWorld) = [mkNote 42 sampleInfo 100 250].
Proof.
  split; [apply sampleWorld_reachable|]. split.
  - apply (List_new_identifiers (λ s, s) sampleWorld 10 5
             sampleWorld_reachable).
    vm_compute. discriminate.
  - reflexivity.
Qed.

(** The example of the spec on concrete requests. *)
Example List_ABC :
  let mk := λ s t, mkCreateRequest (Ok (mkNoteInfo s "" "" false)) t t None in
  let st := (Create (λ s, s) (mk "C" 3)
               (Create (λ s, s) (mk "B" 2)
                  (Create (λ s, s) (mk "A" 1) store0).2).2).2 in
  Title ∘ Info <$> List 1 1 st = ["B"]
  ∧ Title ∘ Info <$> List 2 1 st = ["B"; "C"]
  ∧ List 10 5 st = []
  ∧ List 0 0 st = [].
Proof. repeat split; reflexivity. Qed.

(** ** Readers and writers under the lock *)

Module LockingProps.
Import Locking.

(** *** Copying fields *)

Lemma copyField_idem (f : field) (n b : Note) :
  copyField f n (copyField f n b) = copyField f n b.
Proof. by destruct f. Qed.

Lemma copyField_keeps (f g : field) (n b : Note) :
  copyField g n b = b → copyField g n (copyField f n b) = copyField f n b.
Proof.
  destruct b as [bid [bt bc ba bp] bca bua], n as [nid [nt nc na np] nca nua].
  destruct f, g; simpl; intros [= ?]; by subst.
Qed.

Lemma copyField_all (n b : Note) :
  (∀ f, f ∈ fields → copyField f n b = b) → b = n.
Proof.
  intros H.
  assert (∀ f, copyField f n b = b) as H'.
  { intros f. apply H. destruct f; unfold fields; set_solver. }
  destruct b as [bid [bt bc ba bp] bca bua], n as [nid [nt nc na np] nca nua].
  pose proof (H' FID) as [= ->]. pose proof (H' FTitle) as [= ->].
  pose proof (H' FContext) as [= ->]. pose proof (H' FAuthor) as [= ->].
  pose proof (H' FIsPublic) as [= ->]. pose proof (H' FCreatedAt) as [= ->].
  by pose proof (H' FUpdatedAt) as [= ->].
Qed.

Lemma patchWrites_Update (p : UpdateNoteInfo) (t : Time) (n : Note) :
  runWrites (patchWrites p t) n
  = mkNote (ID n) (applyPatch p (Info n)) (CreatedAt n) t.
Proof.
  destruct n as [nid [nt nc na np] nca nua], p as [[?|] [?|] [?|] [?|]];
    reflexivity.
Qed.

(** *** The programs of the handlers keep the lock discipline *)

Lemma listProg_body_safe (count : nat) (seen : list field) (start : nat) :
  safe Reading true seen
    (flat_map (λ j, [Nth j] ++ map Read fields ++ [Emit]) (seq start count)
     ++ [RUnlock]) = true.
Proof.
  revert seen start. induction count as [|count IH]; intros seen start; [done|].
  simpl. apply IH.
Qed.

Lemma program_safe (h : handler) : safe Idle false [] (program h) = true.
Proof.
  destruct h as [n|id|count|id p t|id|n|id]; try reflexivity.
  - destruct count as [|count]; [done|]. simpl.
    apply listProg_body_safe.
  - destruct p as [[?|] [?|] [?|] [?|]]; reflexivity.
Qed.

(** *** Counting the readers *)

Lemma readers_cons (t : thread) (ts : list thread) :
  readers (t :: ts) = (isReading t + readers ts)%nat.
Proof.
  unfold readers, isReading. rewrite filter_cons. by case_decide.
Qed.

Lemma readers_insert (ts : list thread) (i : nat) (t t' : thread) :
  ts !! i = Some t →
  (readers (<[i := t']> ts) + isReading t = readers ts + isReading t')%nat.
Proof.
  revert i. induction ts as [|x ts IH]; intros [|i] H; try done.
  - simpl in H. injection H as ->. simpl. rewrite !readers_cons. lia.
  - simpl in H. simpl. rewrite !readers_cons. specialize (IH i H). lia.
Qed.

Lemma readers_pos (ts : list thread) (i : nat) (t : thread) :
  ts !! i = Some t → held t = Reading → (0 < readers ts)%nat.
Proof.
  revert i. induction ts as [|x ts IH]; intros [|i] H Hr; try done.
  - simpl in H. injection H as ->. rewrite readers_cons.
    unfold isReading. rewrite decide_True by done. lia.
  - rewrite readers_cons. specialize (IH i H Hr). lia.
Qed.

(** *** One instruction of a disciplined goroutine *)

Ltac exec_cases t :=
  let k := fresh "k" in
  let h := fresh "h" in
  let cu := fresh "cu" in
  destruct t as [[|[] k] h cu ? ?];
  unfold disciplined, hasPtr, exec in *; cbn [prog held cur buf got] in *;
  try discriminate;
  destruct h; cbn [safe] in *; try discriminate;
  destruct cu as [?|]; cbn [bool_decide decide_rel] in *;
  rewrite ?bool_decide_eq_true in *.

Ltac split_andb :=
  repeat match goal with
         | H : _ && _ = true |- _ => apply andb_prop in H as [? ?]
         end.

Lemma exec_disciplined (t t' : thread) (s s' : shared) (out : option Note) :
  exec t s = Some (t', s', out) → disciplined t → disciplined t'.
Proof.
  intros He Hs. exec_cases t.
  all: repeat case_match; simplify_eq/=; try done.
  all: by split_andb.
Qed.

(** What the instruction does to the mutex and to what the goroutine
    holds of it. *)
Lemma exec_lock (t t' : thread) (s s' : shared) (out : option Note) :
  exec t s = Some (t', s', out) →
  disciplined t →
  (held t' = held t ∧ mu s' = mu s)
  ∨ (held t = Idle ∧ held t' = Writing ∧ writer (mu s) = false
     ∧ readerCount (mu s) = 0%nat ∧ mu s' = mkRWMutex true 0)
  ∨ (held t = Writing ∧ held t' = Idle ∧ writer (mu s) = true
     ∧ mu s' = mkRWMutex false (readerCount (mu s)))
  ∨ (held t = Idle ∧ held t' = Reading ∧ writer (mu s) = false
     ∧ mu s' = mkRWMutex false (S (readerCount (mu s))))
  ∨ (held t = Reading ∧ held t' = Idle
     ∧ readerCount (mu s) = S (readerCount (mu s'))
     ∧ writer (mu s') = writer (mu s)).
Proof.
  intros He Hs. exec_cases t.
  all: repeat case_match; simplify_eq/=.
  all: repeat match goal with
              | H : _ || _ = false |- _ => apply orb_false_elim in H as [? ?]
              | H : negb _ = false |- _ => apply negb_false_iff in H
              | H : (_ =? _)%nat = true |- _ => apply Nat.eqb_eq in H
              end.
  all: first [ by left | by (right; left) | by (do 2 right; left)
             | by (do 3 right; left) | by do 4 right ].
Qed.

(** What it does to the map and to the Notes: only under the write
    lock is anything that was there changed, and nothing is freed. *)
Lemma exec_mem (t t' : thread) (s s' : shared) (out : option Note) :
  exec t s = Some (t', s', out) →
  disciplined t →
  (held t ≠ Writing →
   ptrs s' = ptrs s ∧ ∀ p n, heap s !! p = Some n → heap s' !! p = Some n)
  ∧ (∀ p, is_Some (heap s !! p) → is_Some (heap s' !! p)).
Proof.
  intros He Hs. exec_cases t.
  all: repeat case_match; simplify_eq/=; try done.
  - (* New, with a pointer at hand *)
    split; [intros _; split; [done|]|]; intros p.
    + intros n' Hp. rewrite lookup_insert_ne; [done|].
      intros <-. apply (is_fresh (dom (heap s))), elem_of_dom. by eexists.
    + intros Hp. destruct (decide (fresh (dom (heap s)) = p)) as [<-|?].
      * rewrite lookup_insert_eq. by eexists.
      * by rewrite lookup_insert_ne.
  - split; [intros _; split; [done|]|]; intros p.
    + intros n' Hp. rewrite lookup_insert_ne; [done|].
      intros <-. apply (is_fresh (dom (heap s))), elem_of_dom. by eexists.
    + intros Hp. destruct (decide (fresh (dom (heap s)) = p)) as [<-|?].
      * rewrite lookup_insert_eq. by eexists.
      * by rewrite lookup_insert_ne.
  - (* WriteF *)
    split; [done|]. intros p Hp.
    destruct (decide (n = p)) as [<-|?].
    + rewrite lookup_insert_eq. by eexists.
    + by rewrite lookup_insert_ne.
Qed.

Lemma exec_allocated (t t' : thread) (s s' : shared) (out : option Note) :
  exec t s = Some (t', s', out) →
  disciplined t →
  allocated s t → allocated s' t'.
Proof.
  intros He Hs [Hmap Hcur].
  assert (∀ p', is_Some (heap s !! p') → is_Some (heap s' !! p')) as Hkeep.
  { by eapply exec_mem. }
  exec_cases t.
  all: repeat case_match; simplify_eq/=.
  all: split; [intros id' p' Hp'|intros p' [= <-]];
    cbn [heap ptrs mu] in *; eauto.
  all: try (rewrite lookup_insert_eq; by eexists).
  all: try (apply Hkeep; eauto; fail).
  all: try match goal with
           | H : <[?a:=_]> _ !! ?b = Some _ |- _ =>
             destruct (decide (a = b)) as [<-|?];
               [rewrite lookup_insert_eq in H|rewrite lookup_insert_ne in H by done];
               simplify_eq
           | H : delete ?a _ !! ?b = Some _ |- _ =>
             apply lookup_delete_Some in H as [_ H]
           | H : map_to_list _ !! _ = Some _ |- _ =>
             apply list_elem_of_lookup_2, elem_of_map_to_list in H
           end; eauto.
Qed.

Lemma exec_view (t t' : thread) (s s' : shared) (out : option Note) :
  exec t s = Some (t', s', out) →
  disciplined t →
  allocated s t →
  view s t → view s' t'.
Proof.
  intros He Hs [Hmap Hcur] Hv. unfold view in *.
  exec_cases t.
  all: repeat case_match; simplify_eq/=; try done.
  all: intros _ p' [= <-].
  all: try match goal with
           | H : map_to_list _ !! _ = Some _ |- _ =>
             apply list_elem_of_lookup_2, elem_of_map_to_list in H
           end.
  all: first
    [ by apply Hv
    | match goal with
      | H : ptrs _ !! _ = Some ?p |- ∃ _, heap _ !! ?p = _ ∧ _ =>
        let n' := fresh "n'" in
        destruct (Hmap _ _ H) as [n' ?]; exists n';
        split; [done|]; split; [by eexists|]; by intros f ?%elem_of_nil
      end
    | idtac ].
  (* Read *)
  destruct (Hv eq_refl _ eq_refl) as (n' & Hn' & Hid & Hgot).
  match goal with
  | H : heap _ !! _ = Some ?m |- _ =>
    rewrite H in Hn'; injection Hn' as <-; exists m
  end.
  split; [done|]. split; [done|].
  intros f' [->|Hf]%elem_of_cons.
  - apply copyField_idem.
  - apply copyField_keeps. by apply Hgot.
Qed.

(** A Note goes out only once the goroutine has read every field
    through its pointer, and it holds the read lock or no lock then. *)
Lemma exec_emit (t t' : thread) (s s' : shared) (n : Note) :
  exec t s = Some (t', s', Some n) →
  disciplined t →
  n = buf t ∧ prog t ≠ [] ∧ is_Some (cur t)
  ∧ (∀ f, f ∈ fields → f ∈ got t)
  ∧ (held t = Reading ∨ held t = Idle).
Proof.
  intros He Hs.
  exec_cases t.
  all: repeat case_match; simplify_eq/=.
  all: split_andb.
  all: split; [done|]; split; [done|]; split; [by eexists|]; split; [|by auto].
  all: intros f Hf; rewrite !bool_decide_eq_true in *; by destruct f.
Qed.

(** What the instruction of one goroutine does to a Note of another:
    when neither the map nor the goroutine leads to it, that is still
    so afterwards and the Note is as it was. *)
Lemma exec_others (t t' : thread) (s s' : shared) (out : option Note)
    (p : nat) (n : Note) :
  exec t s = Some (t', s', out) →
  disciplined t →
  heap s !! p = Some n →
  cur t ≠ Some p →
  (∀ id, ptrs s !! id ≠ Some p) →
  heap s' !! p = Some n
  ∧ cur t' ≠ Some p
  ∧ (∀ id, ptrs s' !! id ≠ Some p).
Proof.
  intros He Hs Hp Hcur Hmap.
  assert (fresh (dom (heap s)) ≠ p) as Hfresh.
  { intros <-. apply (is_fresh (dom (heap s))), elem_of_dom. by eexists. }
  exec_cases t.
  all: repeat case_match; simplify_eq/=.
  all: try match goal with
           | H : map_to_list _ !! _ = Some _ |- _ =>
             apply list_elem_of_lookup_2, elem_of_map_to_list in H
           end.
  all: split; [|split; [|intros id']].
  all: try done.
  all: try (rewrite lookup_insert_ne by congruence; done).
  all: try (intros [= ->]; by eapply Hmap).
  all: try congruence.
  - intros [[_ ->]|[_ Hd]]%lookup_insert_Some; [done|by eapply Hmap].
  - intros [_ Hd]%lookup_delete_Some. by eapply Hmap.
  - intros [_ Hd]%lookup_delete_Some. by eapply Hmap.
Qed.

(** What it does to the Note the goroutine itself has built and not
    stored yet. *)
Lemma exec_own (t t' : thread) (s s' : shared) (out : option Note) (p : nat) :
  exec t s = Some (t', s', out) →
  disciplined t →
  held t' = Idle → prog t' ≠ [] → cur t' = Some p →
  held t = Idle ∧ prog t ≠ [] ∧ ptrs s' = ptrs s
  ∧ ((cur t = Some p ∧ heap s' = heap s
      ∧ ∀ n, heap s !! p = Some n →
             (∀ f, f ∈ got t → copyField f n (buf t) = buf t) →
             ∀ f, f ∈ got t' → copyField f n (buf t') = buf t')
     ∨ (p = fresh (dom (heap s)) ∧ got t' = []
        ∧ ∃ n, heap s' = <[p := n]> (heap s))).
Proof.
  intros He Hs Hh Hk Hp.
  exec_cases t.
  all: repeat case_match; simplify_eq/=.
  all: split_andb; try done.
  all: split; [done|]; split; [done|]; split; [done|].
  all: try (right; split; [done|]; split; [done|]; by eexists).
  all: left; split; [done|]; split; [done|]; intros n' Hn' Hgot;
    simplify_eq; try done.
  all: intros f' [->|Hf]%elem_of_cons;
    [apply copyField_idem|apply copyField_keeps; by apply Hgot].
Qed.

(** The goroutine of a program that builds no Note gets a pointer only
    from the map, under a lock. *)
Lemma exec_noNew (t t' : thread) (s s' : shared) (out : option Note) :
  exec t s = Some (t', s', out) →
  disciplined t →
  noNew (prog t) = true →
  (held t = Idle → prog t ≠ [] → cur t = None) →
  noNew (prog t') = true
  ∧ (held t' = Idle → prog t' ≠ [] → cur t' = None).
Proof.
  intros He Hs Hn Hc. unfold noNew in *.
  exec_cases t.
  all: cbn [forallb] in *.
  all: repeat case_match; simplify_eq/=.
  all: split_andb; try done.
  all: try (split; [by destruct h|done]).
  all: try (split; [done|]; intros; by apply Hc).
  all: try (specialize (Hc eq_refl); discriminate Hc; done).
Qed.

(** *** The invariant of the server *)

Lemma stepAt_inv (i : nat) (c c' : config) (out : option Note) :
  stepAt i c = Some (c', out) →
  ∃ t t', threads c !! i = Some t
          ∧ exec t (mem c) = Some (t', mem c', out)
          ∧ threads c' = <[i := t']> (threads c).
Proof.
  unfold stepAt. intros H.
  destruct (threads c !! i) as [t|] eqn:Ht; [|done].
  destruct (exec t (mem c)) as [[[t' s'] o]|] eqn:He; [|done].
  injection H as <- <-. by exists t, t'.
Qed.

Lemma invariant_init (hs : list handler) : invariant (init hs).
Proof.
  assert (∀ i t, threads (init hs) !! i = Some t →
                 ∃ h, t = spawn (program h)) as Hsp.
  { intros i t. unfold init. simpl. rewrite list_lookup_fmap.
    destruct (hs !! i) as [h|]; [|done]. intros [= <-]. by exists h. }
  split.
  - intros i t [h ->]%Hsp. done.
  - intros i j ti tj [h ->]%Hsp. done.
  - unfold init. simpl. clear Hsp. induction hs as [|h hs IH]; [done|].
    simpl. rewrite readers_cons. by rewrite IH.
  - done.
  - intros i t [h ->]%Hsp. apply program_safe.
  - intros i t [h ->]%Hsp. split; [|done].
    intros id p. unfold init. simpl. by rewrite lookup_empty.
  - intros i t [h ->]%Hsp. done.
Qed.

Lemma no_reader_under_writer (c : config) (j : nat) (tj : thread) :
  invariant c →
  writer (mu (mem c)) = true →
  threads c !! j = Some tj →
  held tj ≠ Reading.
Proof.
  intros Hinv Hw Hj Hr.
  pose proof (readers_pos _ _ _ Hj Hr) as Hpos.
  rewrite (inv_readers _ Hinv), (inv_excl _ Hinv Hw) in Hpos. lia.
Qed.

Lemma invariant_step (i : nat) (c c' : config) (out : option Note) :
  stepAt i c = Some (c', out) → invariant c → invariant c'.
Proof.
  intros (t & t' & Ht & He & Hts)%stepAt_inv Hinv.
  pose proof (no_reader_under_writer c) as Hnr.
  specialize (Hnr) with (1 := Hinv).
  destruct Hinv as [Hw Hone Hr Hx Hd Ha Hv].
  pose proof (Hd _ _ Ht) as Hdt.
  pose proof (exec_lock _ _ _ _ _ He Hdt) as Hlock.
  pose proof (exec_mem _ _ _ _ _ He Hdt) as [Hmem Hkeep].
  pose proof (exec_allocated _ _ _ _ _ He Hdt (Ha _ _ Ht)) as [Hmap' Hcur'].
  pose proof (readers_insert _ _ _ t' Ht) as Hcount.
  assert (∀ j tj, threads c' !! j = Some tj →
            (j = i ∧ tj = t') ∨ (j ≠ i ∧ threads c !! j = Some tj)) as Hlk.
  { rewrite Hts. intros j tj [(-> & -> & _)|[? ?]]%list_lookup_insert_Some; auto. }
  unfold isReading in Hcount.
  split.
  - (* a writer holds the mutex *)
    intros j tj [[-> ->]|[Hne Hj]]%Hlk Hwj.
    + destruct Hlock as [(Hh & ->)|[(_ & _ & _ & _ & ->)|
        [(_ & Hh & _)|[(_ & Hh & _)|(_ & Hh & _)]]]]; try congruence; try done.
      rewrite Hh in Hwj. eauto.
    + pose proof (Hw _ _ Hj Hwj) as Hwt.
      destruct Hlock as [(Hh & ->)|[(_ & _ & ? & _)|
        [(Hh & _)|[(_ & _ & ? & _)|(Hh & _ & _ & ->)]]]]; try congruence.
      exfalso. apply Hne. symmetry. eauto.
  - (* there is one writer at most *)
    intros a b ta tb [[-> ->]|[Hna Ha']]%Hlk [[-> ->]|[Hnb Hb']]%Hlk Hwa Hwb;
      try done; [symmetry| |by eauto].
    all: match goal with
         | Hj : threads _ !! ?j = Some ?tj, Hwj : held ?tj = Writing |- ?j = _ =>
           pose proof (Hw _ _ Hj Hwj) as Hwt;
           destruct Hlock as [(Hh & _)|[(_ & _ & ? & _)|
             [(_ & Hh & _)|[(_ & Hh & _)|(_ & Hh & _)]]]]; try congruence;
           apply (Hone _ _ _ _ Hj Ht Hwj); congruence
         end.
  - (* the reader count is the number of readers *)
    rewrite Hts.
    destruct Hlock as [(Hh & ->)|[(Hh & Hh' & _ & Hrc & ->)|
      [(Hh & Hh' & _ & ->)|[(Hh & Hh' & _ & ->)|(Hh & Hh' & Hrc & _)]]]];
      rewrite Hh, ?Hh' in Hcount; simpl in *;
      repeat case_decide; try congruence; try lia.
  - (* a writer excludes the readers *)
    destruct Hlock as [(Hh & ->)|[(_ & _ & _ & _ & ->)|
      [(_ & _ & _ & ->)|[(_ & _ & _ & ->)|(Hh & _ & Hrc & Hwr)]]]];
      simpl; try done.
    rewrite Hwr. intros Hwt. specialize (Hx Hwt). lia.
  - (* the programs keep the discipline *)
    intros j tj [[-> ->]|[Hne Hj]]%Hlk; [|by eauto].
    by eapply exec_disciplined.
  - (* the pointers lead to Notes *)
    intros j tj [[-> ->]|[Hne Hj]]%Hlk; [done|].
    split; [done|]. intros p Hp. apply Hkeep. by apply (Ha _ _ Hj).
  - (* the readers see what the map holds *)
    intros j tj [[-> ->]|[Hne Hj]]%Hlk.
    + eapply exec_view; eauto.
    + intros Hrj p Hp.
      destruct (Hv _ _ Hj Hrj p Hp) as (n & Hn & [id Hid] & Hgot).
      destruct (decide (held t = Writing)) as [Hwt|Hnw].
      * exfalso. by apply (Hnr _ _ (Hw _ _ Ht Hwt) Hj).
      * destruct (Hmem Hnw) as [Hptrs Hheap].
        exists n. split; [by apply Hheap|]. split; [|done].
        exists id. by rewrite Hptrs.
Qed.

Lemma reachable_invariant (hs : list handler) (c : config) :
  reachable hs c → invariant c.
Proof.
  induction 1; [apply invariant_init|by eapply invariant_step].
Qed.

Lemma run_reachable (hs : list handler) (sched : list nat)
    (c c' : config) (outs : list Note) :
  reachable hs c → run sched c = Some (c', outs) → reachable hs c'.
Proof.
  revert c outs. induction sched as [|i sched IH]; intros c outs Hr Hrun.
  - simpl in Hrun. by injection Hrun as <- _.
  - simpl in Hrun.
    destruct (stepAt i c) as [[c1 out]|] eqn:Hs; [|done].
    destruct (run sched c1) as [[c2 outs']|] eqn:Hrest; [|done].
    injection Hrun as <- _. eapply IH; [|done].
    by eapply reachable_step.
Qed.

(** *** The Note a goroutine has built and not stored yet *)

Lemma fresh_not_allocated (hp : gmap nat Note) :
  ¬ is_Some (hp !! fresh (dom hp)).
Proof. intros H. by apply (is_fresh (dom hp)), elem_of_dom. Qed.

Lemma own_init (hs : list handler) : own (init hs).
Proof.
  intros i t p Ht _ _ Hp. unfold init in Ht. simpl in Ht.
  rewrite list_lookup_fmap in Ht.
  destruct (hs !! i) as [h|]; [|done]. by injection Ht as <-.
Qed.

Lemma own_step (i : nat) (c c' : config) (out : option Note) :
  stepAt i c = Some (c', out) → invariant c → own c → own c'.
Proof.
  intros (t & t' & Ht & He & Hts)%stepAt_inv Hinv Hown.
  pose proof (inv_disc c Hinv _ _ Ht) as Hdt.
  assert (∀ j tj, threads c' !! j = Some tj →
            (j = i ∧ tj = t') ∨ (j ≠ i ∧ threads c !! j = Some tj)) as Hlk.
  { rewrite Hts. intros j tj [(-> & -> & _)|[? ?]]%list_lookup_insert_Some; auto. }
  intros j tj p [[-> ->]|[Hne Hj]]%Hlk Hh Hk Hp.
  - (* the goroutine that ran *)
    destruct (exec_own _ _ _ _ _ _ He Hdt Hh Hk Hp)
      as (Hh0 & Hk0 & Hptrs & [(Hp0 & Hheap & Hagree)|(-> & Hgot & n & Hheap)]).
    + destruct (Hown _ _ _ Ht Hh0 Hk0 Hp0) as ((n & Hn & Hg) & Hunpub & Hunsh).
      split; [|split].
      * exists n. rewrite Hheap. split; [done|]. by apply Hagree.
      * intros id. rewrite Hptrs. apply Hunpub.
      * intros k tk [[-> ->]|[Hnk Hk']]%Hlk Hne'; [done|]. by eapply Hunsh.
    + split; [|split].
      * exists n. rewrite Hheap, lookup_insert_eq. split; [done|].
        rewrite Hgot. by intros f ?%elem_of_nil.
      * intros id Hid. rewrite Hptrs in Hid.
        destruct (inv_alloc c Hinv _ _ Ht) as [Hmap _].
        by apply (fresh_not_allocated (heap (mem c))), (Hmap id).
      * intros k tk [[-> ->]|[Hnk Hk']]%Hlk Hne' Hck; [done|].
        destruct (inv_alloc c Hinv _ _ Hk') as [_ Hcur].
        by apply (fresh_not_allocated (heap (mem c))), Hcur.
  - (* another one *)
    destruct (Hown _ _ _ Hj Hh Hk Hp) as ((n & Hn & Hg) & Hunpub & Hunsh).
    assert (cur t ≠ Some p) as Hct by (eapply Hunsh; eauto).
    destruct (exec_others _ _ _ _ _ _ _ He Hdt Hn Hct Hunpub)
      as (Hn' & Hct' & Hunpub').
    split; [by exists n|]. split; [done|].
    intros k tk [[-> ->]|[Hnk Hk']]%Hlk Hne'; [done|]. by eapply Hunsh.
Qed.

Lemma reachable_own (hs : list handler) (c : config) :
  reachable hs c → own c.
Proof.
  induction 1 as [|c i c' out Hr IH Hs]; [apply own_init|].
  eapply own_step; [done| |done]. by eapply reachable_invariant.
Qed.

Lemma listProg_body_noNew (count start : nat) :
  noNew (flat_map (λ j, [Nth j] ++ map Read fields ++ [Emit]) (seq start count)
         ++ [RUnlock]) = true.
Proof.
  revert start. induction count as [|count IH]; intros start; [done|].
  simpl. apply IH.
Qed.

Lemma program_noNew (h : handler) :
  builds h = false → noNew (program h) = true.
Proof.
  destruct h as [n|id|count|id p t|id|n|id]; try done; intros _.
  - apply listProg_body_noNew.
  - by destruct p as [[?|] [?|] [?|] [?|]].
Qed.

Lemma reachable_lockedReads (hs : list handler) (c : config) :
  reachable hs c → lockedReads hs c.
Proof.
  induction 1 as [|c i c' out Hr IH Hs].
  - intros i h t Hh Ht Hb. unfold init in Ht. simpl in Ht.
    rewrite list_lookup_fmap, Hh in Ht. injection Ht as <-.
    split; [by apply program_noNew|done].
  - pose proof (reachable_invariant hs c Hr) as Hinv.
    apply stepAt_inv in Hs as (t & t' & Ht & He & Hts).
    intros j h tj Hh Hj Hb. rewrite Hts in Hj.
    apply list_lookup_insert_Some in Hj as [(-> & -> & _)|[Hne Hj]].
    + destruct (IH _ _ _ Hh Ht Hb) as [Hn Hc].
      by apply (exec_noNew _ _ _ _ _ He (inv_disc c Hinv _ _ Ht)).
    + by apply (IH _ _ _ Hh Hj Hb).
Qed.

(** C9: in every configuration a schedule of the handlers can reach,
    a goroutine inside its write section is alone, every other one
    holds nothing of the mutex; a goroutine outside a write section
    changes neither the map nor any Note in memory; and a Note that
    goes out is field for field the Note the pointer of its goroutine
    leads to at that moment, in one of two ways.  Either the goroutine
    holds the read lock: then no writer holds the mutex or is inside a
    write section, and the map leads to that Note.  Or it holds no
    lock: then the Note is the one it has built itself and sends
    before storing it (Create, line 88), the map does not lead to it
    and no other goroutine has a pointer to it.  The goroutine of a
    handler that builds no Note, so that of every Get and List, sends
    in the first way only. *)
Theorem no_torn_reads (hs : list handler) (c : config) :
  reachable hs c →
  (∀ i j ti tj,
     threads c !! i = Some ti → threads c !! j = Some tj →
     held ti = Writing → i ≠ j → held tj = Idle)
  ∧ (∀ i t c' out,
       threads c !! i = Some t → stepAt i c = Some (c', out) →
       held t ≠ Writing →
       ptrs (mem c') = ptrs (mem c)
       ∧ ∀ p n, heap (mem c) !! p = Some n → heap (mem c') !! p = Some n)
  ∧ (∀ i c' n,
       stepAt i c = Some (c', Some n) →
       ∃ t p,
         threads c !! i = Some t ∧ cur t = Some p
         ∧ heap (mem c) !! p = Some n
         ∧ ((held t = Reading
             ∧ writer (mu (mem c)) = false
             ∧ (∀ j tj, threads c !! j = Some tj → held tj ≠ Writing)
             ∧ ∃ id, ptrs (mem c) !! id = Some p)
            ∨ (held t = Idle
               ∧ (∀ id, ptrs (mem c) !! id ≠ Some p)
               ∧ ∀ j tj, threads c !! j = Some tj → j ≠ i →
                         cur tj ≠ Some p)))
  ∧ (∀ i h c' n,
       hs !! i = Some h → builds h = false →
       stepAt i c = Some (c', Some n) →
       ∃ t, threads c !! i = Some t ∧ held t = Reading
            ∧ published (mem c) n).
Proof.
  intros Hreach.
  pose proof (reachable_invariant hs c Hreach) as Hinv.
  pose proof (reachable_own hs c Hreach) as Hown.
  pose proof (reachable_lockedReads hs c Hreach) as Hlr.
  assert (∀ i c' n,
       stepAt i c = Some (c', Some n) →
       ∃ t p,
         threads c !! i = Some t ∧ cur t = Some p
         ∧ heap (mem c) !! p = Some n
         ∧ ((held t = Reading
             ∧ writer (mu (mem c)) = false
             ∧ (∀ j tj, threads c !! j = Some tj → held tj ≠ Writing)
             ∧ ∃ id, ptrs (mem c) !! id = Some p)
            ∨ (held t = Idle ∧ prog t ≠ []
               ∧ (∀ id, ptrs (mem c) !! id ≠ Some p)
               ∧ ∀ j tj, threads c !! j = Some tj → j ≠ i →
                         cur tj ≠ Some p))) as Hemit.
  { intros i c' n (t & t' & Ht & He & _)%stepAt_inv.
    destruct (exec_emit _ _ _ _ _ He (inv_disc c Hinv _ _ Ht))
      as (-> & Hk & [p Hp] & Hall & Hheld).
    exists t, p. split; [done|]. split; [done|].
    destruct Hheld as [Hr|Hi].
    - destruct (inv_view c Hinv _ _ Ht Hr p Hp) as (n & Hn & Hid & Hgot).
      assert (buf t = n) as ->.
      { apply copyField_all. intros f Hf. by apply Hgot, Hall. }
      split; [done|]. left.
      assert (writer (mu (mem c)) = false) as Hnow.
      { destruct (writer (mu (mem c))) eqn:Hwr; [|done]. exfalso.
        by apply (no_reader_under_writer c i t Hinv Hwr Ht). }
      split; [done|]. split; [done|]. split; [|done].
      intros j tj Hj Hwj.
      by rewrite (inv_writer c Hinv _ _ Hj Hwj) in Hnow.
    - destruct (Hown _ _ _ Ht Hi Hk Hp) as ((n & Hn & Hgot) & Hunpub & Hunsh).
      assert (buf t = n) as ->.
      { apply copyField_all. intros f Hf. by apply Hgot, Hall. }
      split; [done|]. by right. }
  split; [|split; [|split]].
  - intros i j ti tj Hi Hj Hwi Hne.
    destruct (held tj) eqn:Hhj; [done| |].
    + exfalso.
      by apply (no_reader_under_writer c j tj Hinv
                  (inv_writer c Hinv _ _ Hi Hwi) Hj).
    + exfalso. apply Hne. by apply (inv_one c Hinv i j ti tj).
  - intros i t c' out Ht (t0 & t' & Ht0 & He & _)%stepAt_inv Hnw.
    rewrite Ht in Ht0. injection Ht0 as <-.
    by apply (exec_mem _ _ _ _ _ He (inv_disc c Hinv _ _ Ht)).
  - intros i c' n Hs.
    destruct (Hemit i c' n Hs) as (t & p & Ht & Hp & Hn & [Hr|Hi]).
    + exists t, p. do 3 (split; [done|]). by left.
    + exists t, p. do 3 (split; [done|]). right.
      by destruct Hi as (? & _ & ? & ?).
  - intros i h c' n Hh Hb Hs.
    destruct (Hemit i c' n Hs) as (t & p & Ht & Hp & Hn & [Hr|Hi]).
    + exists t. split; [done|]. destruct Hr as (Hr & _ & _ & id & Hid).
      split; [done|]. by exists id, p.
    + exfalso. destruct Hi as (Hi & Hk & _).
      destruct (Hlr _ _ _ Hh Ht Hb) as [_ Hnone].
      by rewrite (Hnone Hi Hk) in Hp.
Qed.

Lemma sampleConfig_reachable : reachable sampleHandlers sampleConfig.
Proof.
  apply (run_reachable sampleHandlers sampleSchedule (init sampleHandlers)
           sampleConfig [sampleNote]); [constructor|].
  by vm_compute.
Qed.

Lemma sampleBuilding_reachable : reachable sampleHandlers sampleBuilding.
Proof.
  apply (run_reachable sampleHandlers (replicate 8 0%nat)
           (init sampleHandlers) sampleBuilding []); [constructor|].
  by vm_compute.
Qed.

Lemma no_torn_reads_witness :
  ((∃ c', stepAt 1 sampleConfig = Some (c', Some sampleNote))
   ∧ ∃ t, threads sampleConfig !! 1%nat = Some t ∧ held t = Reading
          ∧ published (mem sampleConfig) sampleNote)
  ∧ ((∃ c', stepAt 0 sampleBuilding = Some (c', Some sampleNote))
     ∧ ∃ t p, threads sampleBuilding !! 0%nat = Some t ∧ cur t = Some p
              ∧ heap (mem sampleBuilding) !! p = Some sampleNote
              ∧ held t = Idle
              ∧ ∀ id, ptrs (mem sampleBuilding) !! id ≠ Some p).
Proof.
  split.
  - assert (∃ c', stepAt 1 sampleConfig = Some (c', Some sampleNote)) as Hstep.
    { eexists. by vm_compute. }
    split; [exact Hstep|].
    destruct Hstep as [c' Hstep].
    destruct (no_torn_reads sampleHandlers sampleConfig sampleConfig_reachable)
      as (_ & _ & _ & Hread).
    exact (Hread 1%nat (HGet 7) c' sampleNote eq_refl eq_refl Hstep).
  - assert (∃ c', stepAt 0 sampleBuilding = Some (c', Some sampleNote))
      as Hstep.
    { eexists. by vm_compute. }
    split; [exact Hstep|].
    destruct Hstep as [c' Hstep].
    destruct (no_torn_reads sampleHandlers sampleBuilding
                sampleBuilding_reachable) as (_ & _ & Hemit & _).
    destruct (Hemit 0%nat c' sampleNote Hstep)
      as (t & p & Ht & Hp & Hn & [(_ & _ & _ & id & Hid)|(Hi & Hunpub & _)]).
    + exfalso. assert (ptrs (mem sampleBuilding) = ∅) as Hempty by by vm_compute.
      by rewrite Hempty, lookup_empty in Hid.
    + by exists t, p.
Defined.

(** The Create of the sample server sends its Note before it takes the
    lock: the Note is in memory and the map is still empty. *)
Example create_sends_before_storing :
  (∃ c', stepAt 0 sampleBuilding = Some (c', Some sampleNote))
  ∧ (held <$> threads sampleBuilding !! 0%nat) = Some Idle
  ∧ ptrs (mem sampleBuilding) = ∅
  ∧ heap (mem sampleBuilding) !! 0%nat = Some sampleNote.
Proof. split; [eexists|]; by vm_compute. Qed.

(** While the Get holds the read lock the Update cannot start: the
    schedule that tries it is refused at the [Lock]. *)
Example update_waits_for_reader :
  run (replicate 12 0 ++ [1; 1; 2])%nat (init sampleHandlers) = None
  ∧ snd <$> run (replicate 12 0 ++ replicate 11 1 ++ replicate 6 2)%nat
                (init sampleHandlers)
    = Some [sampleNote; sampleNote].
Proof. split; by vm_compute. Qed.

(** What the read lock is for: a Get that takes none can run between
    two writes of an Update, and the Note it sends, after the one the
    Create sent, has the old title next to the new context, a Note the
    map never led to. *)
Example unlocked_reader_is_torn :
  snd <$> run (replicate 12 0 ++ [1; 1; 1] ++ replicate 6 2
               ++ replicate 6 1)%nat
              unlockedServer
    = Some [sampleNote; mkNote 7 (mkNoteInfo "A" "X" "C" true) 100 300]
  ∧ safe Idle false [] (unlockedGet 7) = false.
Proof. split; by vm_compute. Qed.

(** *** The programs do what the handlers do *)

Lemma run_execN (k i : nat) (c : config) (t t' : thread) (s' : shared)
    (outs : list Note) :
  threads c !! i = Some t →
  execN k t (mem c) = Some (t', s', outs) →
  run (replicate k i) c
  = Some ({| mem := s'; threads := <[i := t']> (threads c) |}, outs).
Proof.
  revert c t outs. induction k as [|k IH]; intros c t outs Ht He; simpl in *.
  - injection He as <- <- <-. rewrite list_insert_id by done. by destruct c.
  - unfold stepAt. rewrite Ht.
    destruct (exec t (mem c)) as [[[t1 s1] out]|]; [|done].
    destruct (execN k t1 s1) as [[[t2 s2] outs2]|] eqn:He2; [|done].
    injection He as <- <- <-.
    rewrite (IH {| mem := s1; threads := <[i := t1]> (threads c) |} t1 outs2).
    + simpl. by rewrite list_insert_insert_eq.
    + simpl. apply list_lookup_insert_eq. by eapply lookup_lt_Some.
    + done.
Qed.

(** The goroutine of a Create, run on a free mutex, sends its Note
    and leaves the map as the assignment of [createNoteHandler] leaves
    it. *)
Lemma createProg_contents (n : Note) (s : shared) :
  mu s = mkRWMutex false 0 →
  (∀ id p, ptrs s !! id = Some p → is_Some (heap s !! p)) →
  ∃ t' s', execN 12 (spawn (createProg n)) s = Some (t', s', [n])
           ∧ prog t' = [] ∧ mu s' = mu s
           ∧ contents s' = <[ID n := n]> (contents s).
Proof.
  destruct s as [[w rc] ps hp]. simpl. intros [= -> ->] Halloc.
  assert (∃ t', execN 12 (spawn (createProg n))
                  {| mu := mkRWMutex false 0; ptrs := ps; heap := hp |}
                = Some (t', {| mu := mkRWMutex false 0;
                               ptrs := <[ID n := fresh (dom hp)]> ps;
                               heap := <[fresh (dom hp) := n]> hp |}, [n])
                ∧ prog t' = []) as (t' & Hrun & Hk).
  { destruct n as [nid [nt nc na np] nca nua]. eexists.
    unfold createProg, spawn.
    repeat (progress (rewrite ?lookup_insert_eq;
              cbn [execN exec app map fields prog held cur buf got
                   mu writer readerCount ptrs heap mbind option_bind])).
    cbn. split; reflexivity. }
  exists t'. eexists. split; [exact Hrun|]. split; [done|]. split; [done|].
  unfold contents. simpl. apply map_eq. intros k.
  rewrite lookup_omap.
  destruct (decide (ID n = k)) as [<-|Hne].
  - rewrite !lookup_insert_eq. simpl. by rewrite lookup_insert_eq.
  - rewrite !lookup_insert_ne by done. rewrite lookup_omap.
    destruct (ps !! k) as [q|] eqn:Hq; [|done]. simpl.
    apply lookup_insert_ne. intros <-.
    apply (is_fresh (dom hp)), elem_of_dom. by eapply Halloc.
Qed.

Lemma copyField_fields (n : Note) (b : Note) :
  foldl (λ b f, copyField f n b) b fields = n.
Proof. by destruct n as [? []], b as [? []]. Qed.

(** The goroutine of a Get, run while no writer holds the mutex,
    sends the Note the map leads to under the identifier and leaves
    the memory as it found it; when there is none it sends nothing. *)
Lemma getProg_contents (id : Z) (s : shared) :
  writer (mu s) = false →
  (∀ id p, ptrs s !! id = Some p → is_Some (heap s !! p)) →
  ∃ k t', execN k (spawn (getProg id)) s
          = Some (t', s, option_list (contents s !! id))
          ∧ prog t' = [].
Proof.
  destruct s as [[w rc] ps hp]. simpl. intros -> Halloc.
  unfold contents. simpl. rewrite lookup_omap.
  destruct (ps !! id) as [p|] eqn:Hp; simpl.
  - destruct (Halloc _ _ Hp) as [[nid [nt nc na np] nca nua] Hn].
    exists 11%nat. eexists.
    unfold getProg, spawn.
    repeat (progress (rewrite ?Hp, ?Hn;
              cbn [execN exec app map fields prog held cur buf got
                   mu writer readerCount ptrs heap mbind option_bind])).
    cbn. split; reflexivity.
  - exists 3%nat. eexists.
    unfold getProg, spawn.
    cbn [execN exec app map fields prog held cur buf got
         mu writer readerCount ptrs heap].
    rewrite Hp. by split.
Qed.

(** Against the handlers of the sequential model: on a memory that
    holds the map [m], the goroutine of a successful Create sends the
    Note [createNoteHandler] encodes and ends in a memory that holds
    the map it returns, and the goroutine of a Get sends the Note
    [getNoteHandler] encodes. *)
Lemma createProg_createNoteHandler (seeded : Z → Z) (r : CreateRequest)
    (info : NoteInfo) (m : SyncMap) (s : shared) :
  body r = Ok info →
  encodeErr r = None →
  mu s = mkRWMutex false 0 →
  (∀ id p, ptrs s !! id = Some p → is_Some (heap s !! p)) →
  contents s = elems m →
  ∃ t' s', execN 12 (spawn (createProg (newNote seeded r info))) s
           = Some (t', s',
                   option_list (noteSent (createNoteHandler seeded [] r m).1))
           ∧ contents s' = elems (createNoteHandler seeded [] r m).2.
Proof.
  intros Hb He Hmu Halloc Hm.
  destruct (createProg_contents (newNote seeded r info) s Hmu Halloc)
    as (t' & s' & Hrun & _ & _ & Hc).
  exists t', s'.
  rewrite (createNoteHandler_ok _ _ _ _ info) by done.
  split; [done|]. simpl. by rewrite Hc, Hm.
Qed.

Lemma getProg_getNoteHandler (r : GetRequest) (id : Z) (m : SyncMap)
    (s : shared) :
  parseNoteID (idParam r) = Ok id →
  getEncodeErr r = None →
  writer (mu s) = false →
  (∀ id p, ptrs s !! id = Some p → is_Some (heap s !! p)) →
  contents s = elems m →
  ∃ k t', execN k (spawn (getProg id)) s
          = Some (t', s, option_list (noteSent (getNoteHandler [] r m).1)).
Proof.
  intros Hp He Hmu Halloc Hm.
  destruct (getProg_contents id s Hmu Halloc) as (k & t' & Hrun & _).
  exists k, t'. rewrite Hrun. do 2 f_equal.
  unfold getNoteHandler. rewrite Hp, Hm, He.
  by destruct (elems m !! id).
Qed.

(** When the encoding fails, the goroutine of a Create returns before
    the lock and nothing went out; the map is as it was, which is what
    [createNoteHandler] returns then. *)
Lemma createFailProg_createNoteHandler (seeded : Z → Z) (r : CreateRequest)
    (info : NoteInfo) (err : string) (m : SyncMap) (s : shared) :
  body r = Ok info →
  encodeErr r = Some err →
  (∀ id p, ptrs s !! id = Some p → is_Some (heap s !! p)) →
  contents s = elems m →
  ∃ t' s', execN 8 (spawn (createFailProg (newNote seeded r info))) s
           = Some (t', s', [])
           ∧ prog t' = [] ∧ held t' = Idle ∧ mu s' = mu s
           ∧ contents s' = elems (createNoteHandler seeded [] r m).2.
Proof.
  intros Hb He Halloc Hm.
  rewrite (createNoteHandler_encode_err _ _ _ _ info err) by done.
  destruct s as [mx ps hp]. simpl in *.
  assert (∃ t', execN 8 (spawn (createFailProg (newNote seeded r info)))
                  {| mu := mx; ptrs := ps; heap := hp |}
                = Some (t', {| mu := mx; ptrs := ps;
                               heap := <[fresh (dom hp)
                                         := newNote seeded r info]> hp |}, [])
                ∧ prog t' = [] ∧ held t' = Idle) as (t' & Hrun & Hk & Hh).
  { eexists. unfold createFailProg, spawn.
    repeat (progress (rewrite ?lookup_insert_eq;
              cbn [execN exec app map fields prog held cur buf got
                   mu writer readerCount ptrs heap mbind option_bind])).
    cbn. by repeat split. }
  exists t'. eexists. split; [exact Hrun|]. do 3 (split; [done|]).
  rewrite <- Hm. unfold contents. simpl. apply map_eq. intros k.
  rewrite !lookup_omap.
  destruct (ps !! k) as [q|] eqn:Hq; [|done]. simpl.
  apply lookup_insert_ne. intros <-.
  apply (is_fresh (dom hp)), elem_of_dom. by eapply Halloc.
Qed.

(** When the encoding fails, the goroutine of a Get returns through
    its deferred unlock, nothing went out and the memory is as it
    was. *)
Lemma getFailProg_returns (id : Z) (s : shared) :
  writer (mu s) = false →
  (∀ id p, ptrs s !! id = Some p → is_Some (heap s !! p)) →
  ∃ k t', execN k (spawn (getFailProg id)) s = Some (t', s, [])
          ∧ prog t' = [] ∧ held t' = Idle.
Proof.
  destruct s as [[w rc] ps hp]. simpl. intros -> Halloc.
  destruct (ps !! id) as [p|] eqn:Hp; simpl.
  - destruct (Halloc _ _ Hp) as [[nid [nt nc na np] nca nua] Hn].
    exists 10%nat. eexists.
    unfold getFailProg, spawn.
    repeat (progress (rewrite ?Hp, ?Hn;
              cbn [execN exec app map fields prog held cur buf got
                   mu writer readerCount ptrs heap mbind option_bind])).
    cbn. by repeat split.
  - exists 3%nat. eexists.
    unfold getFailProg, spawn.
    cbn [execN exec app map fields prog held cur buf got
         mu writer readerCount ptrs heap].
    rewrite Hp. by repeat split.
Qed.

End LockingProps.

(** * Further properties of the two programs *)

(** ** Identifiers in URLs *)

Lemma digit_digitChar (d : Z) : 0 ≤ d ≤ 9 → digit (digitChar d) = Some d.
Proof.
  intros H.
  assert (d = 0 ∨ d = 1 ∨ d = 2 ∨ d = 3 ∨ d = 4 ∨ d = 5 ∨ d = 6 ∨ d = 7
          ∨ d = 8 ∨ d = 9) as Hd by lia.
  repeat destruct Hd as [->|Hd]; try reflexivity. by subst.
Qed.

Lemma digit_not_sign (c : ascii) (d : Z) :
  digit c = Some d → Ascii.eqb c "+" = false ∧ Ascii.eqb c "-" = false.
Proof.
  intros H. split; apply Ascii.eqb_neq; intros ->; discriminate.
Qed.

(** The digits [formatBits] writes are read back by the loop of
    [ParseUint] as the number they came from. *)
Lemma parseUintLoop_formatBits (fuel : nat) (u : Z) (acc : string) :
  0 ≤ u < 10 ^ Z.of_nat fuel →
  u ≤ maxUint64 →
  parseUintLoop (formatBits fuel u acc) 0 = parseUintLoop acc u.
Proof.
  revert u acc. induction fuel as [|fuel IH]; intros u acc Hu Hmax.
  - simpl in Hu. assert (u = 0) as -> by lia. done.
  - simpl. destruct (u <? 10) eqn:Hlt.
    + apply Z.ltb_lt in Hlt. simpl.
      rewrite digit_digitChar by lia.
      replace (maxUint64 / 10 + 1 <=? 0) with false by reflexivity.
      replace (0 * 10 + u) with u by lia.
      destruct (maxUint64 <? u) eqn:Hc; [apply Z.ltb_lt in Hc; lia|done].
    + apply Z.ltb_ge in Hlt.
      rewrite Nat2Z.inj_succ, Z.pow_succ_r in Hu by lia.
      rewrite IH.
      * simpl. rewrite digit_digitChar by (pose proof (Z.mod_pos_bound u 10); lia).
        unfold maxUint64 in *.
        destruct (_ <=? u / 10) eqn:Hc1.
        { apply Z.leb_le in Hc1.
          assert (u / 10 ≤ (2 ^ 64 - 1) / 10) by (apply Z.div_le_mono; lia).
          lia. }
        replace (u / 10 * 10 + u mod 10) with u
          by (rewrite (Z.div_mod u 10) at 1; lia).
        destruct (_ <? u) eqn:Hc2; [apply Z.ltb_lt in Hc2; lia|done].
      * split; [apply Z.div_pos; lia|].
        apply Z.div_lt_upper_bound; lia.
      * assert (u / 10 ≤ u) by (apply Z.div_le_upper_bound; lia). lia.
Qed.

Lemma formatBits_first (fuel : nat) (u : Z) (acc : string) :
  0 ≤ u →
  ∃ c s d, formatBits (S fuel) u acc = String c s ∧ digit c = Some d.
Proof.
  revert u acc. induction fuel as [|fuel IH]; intros u acc Hu.
  - simpl. destruct (u <? 10) eqn:Hlt.
    + apply Z.ltb_lt in Hlt. eexists _, _, _. split; [done|].
      apply digit_digitChar. lia.
    + eexists _, _, _. split; [done|].
      apply digit_digitChar. pose proof (Z.mod_pos_bound u 10). lia.
  - cbn [formatBits]. destruct (u <? 10) eqn:Hlt.
    + apply Z.ltb_lt in Hlt. eexists _, _, _. split; [done|].
      apply digit_digitChar. lia.
    + apply IH. apply Z.div_pos; lia.
Qed.

Lemma ParseUint_FormatUint (u : Z) :
  0 ≤ u ≤ maxUint64 → ParseUint (FormatUint u) = Ok u.
Proof.
  intros Hu. unfold ParseUint, FormatUint.
  destruct (formatBits_first 19 u "" ltac:(lia)) as (c & s & d & Hs & _).
  rewrite Hs, <- Hs.
  rewrite parseUintLoop_formatBits; [done| |lia].
  unfold maxUint64 in Hu. simpl. lia.
Qed.

(** X1: the identifier the client prints with [%d] is the identifier
    the server parses, for every [int64]. *)
Theorem parseNoteID_FormatInt (id : Z) :
  - 2 ^ 63 ≤ id < 2 ^ 63 → parseNoteID (FormatInt id) = Ok id.
Proof.
  intros Hid. unfold parseNoteID, FormatInt.
  destruct (id <? 0) eqn:Hneg.
  - apply Z.ltb_lt in Hneg. unfold ParseInt.
    replace (Ascii.eqb "-" "-") with true by reflexivity.
    replace (Ascii.eqb "-" "+" || true) with true by reflexivity.
    rewrite ParseUint_FormatUint by (unfold maxUint64; lia).
    cbv zeta. simpl negb. simpl andb at 1.
    destruct (2 ^ 63 <? - id) eqn:Hc; [apply Z.ltb_lt in Hc; lia|].
    simpl. f_equal. lia.
  - apply Z.ltb_ge in Hneg.
    pose proof (ParseUint_FormatUint id ltac:(unfold maxUint64; lia)) as Hp.
    unfold FormatUint in *.
    destruct (formatBits_first 19 id "" Hneg) as (c & s & d & Hs & Hd).
    rewrite Hs in *. unfold ParseInt.
    destruct (digit_not_sign c d Hd) as [-> ->]. simpl orb. cbv iota.
    rewrite Hp. cbv zeta. simpl negb. simpl andb.
    destruct (2 ^ 63 <=? id) eqn:Hc; [apply Z.leb_le in Hc; lia|done].
Qed.

Lemma parseNoteID_FormatInt_witness :
  - 2 ^ 63 ≤ 2 ^ 63 - 1 < 2 ^ 63
  ∧ parseNoteID (FormatInt (2 ^ 63 - 1)) = Ok (2 ^ 63 - 1).
Proof.
  split; [lia|]. apply (parseNoteID_FormatInt (2 ^ 63 - 1)). lia.
Defined.

Example FormatInt_examples :
  FormatInt 0 = "0" ∧ FormatInt 42 = "42" ∧ FormatInt (-7) = "-7"
  ∧ FormatInt (2 ^ 63 - 1) = "9223372036854775807"
  ∧ FormatInt (- 2 ^ 63) = "-9223372036854775808"
  ∧ Sprintf (baseUrl ++ getPostfix) 42 = "http://localhost:8081/notes/42".
Proof. repeat split; reflexivity. Qed.

(** X2: an identifier that parses is an [int64]; the handler never
    looks up a key outside that range. *)
Theorem parseNoteID_range (idStr : string) (id : Z) :
  parseNoteID idStr = Ok id → - 2 ^ 63 ≤ id < 2 ^ 63.
Proof. apply parseNoteID_int64. Qed.

Lemma parseNoteID_range_witness :
  parseNoteID "-9223372036854775808" = Ok (- 2 ^ 63)
  ∧ - 2 ^ 63 ≤ - 2 ^ 63 < 2 ^ 63.
Proof.
  split; [reflexivity|].
  apply (parseNoteID_range "-9223372036854775808" (- 2 ^ 63)). reflexivity.
Defined.

(** ** What the handlers answer *)

Ltac break_hyps :=
  repeat match goal with
         | H : ∃ _, _ |- _ => destruct H
         | H : _ ∧ _ |- _ => destruct H
         | H : is_Some _ |- _ => destruct H
         end.

Ltac settle := repeat split; intros; break_hyps; simplify_eq/=; eauto.

(** X3: [getNoteHandler] never changes the map, and its answer is
    decided by the parameter and the map: 400 exactly when the
    parameter does not parse, 404 exactly when it parses to a key the
    map lacks, 200 exactly when the Note is there, whether its encoding
    works or not, so never 500: the failing [Write] has committed the
    status before [http.Error] is reached.  A Note is sent exactly when
    it is there and encoded, it is the one stored under the key, and
    every other request is reported as an error. *)
Theorem getNoteHandler_responses (r : GetRequest) (m : SyncMap) :
  (getNoteHandler [] r m).2 = m
  ∧ (statusSent (getNoteHandler [] r m).1 = Some StatusBadRequest
     ↔ ∃ e, parseNoteID (idParam r) = Err e)
  ∧ (statusSent (getNoteHandler [] r m).1 = Some StatusNotFound
     ↔ ∃ id, parseNoteID (idParam r) = Ok id ∧ elems m !! id = None)
  ∧ (statusSent (getNoteHandler [] r m).1 = Some StatusOK
     ↔ ∃ id n, parseNoteID (idParam r) = Ok id ∧ elems m !! id = Some n)
  ∧ statusSent (getNoteHandler [] r m).1 ≠ Some StatusInternalServerError
  ∧ (∀ n, noteSent (getNoteHandler [] r m).1 = Some n
          ↔ ∃ id, parseNoteID (idParam r) = Ok id ∧ elems m !! id = Some n
                  ∧ getEncodeErr r = None)
  ∧ (failed (getNoteHandler [] r m).1 = true
     ↔ noteSent (getNoteHandler [] r m).1 = None).
Proof.
  split; [apply getNoteHandler_store|].
  unfold getNoteHandler.
  destruct (parseNoteID (idParam r)) as [id|e] eqn:Hp.
  - destruct (elems m !! id) as [n|] eqn:Hl.
    + destruct (getEncodeErr r) as [err|] eqn:He; simpl; settle.
    + simpl. settle.
  - simpl. settle.
Qed.

(** X4: [createNoteHandler] answers 400 exactly when the body does
    not decode and 201 in every other case, so never 500; a Note is
    sent exactly when the body decoded and the encoding worked, it is
    the Note built for the request, and the map changes in no other
    case. *)
Theorem createNoteHandler_responses (seeded : Z → Z) (r : CreateRequest)
    (m : SyncMap) :
  (statusSent (createNoteHandler seeded [] r m).1 = Some StatusBadRequest
   ↔ ∃ e, body r = Err e)
  ∧ (statusSent (createNoteHandler seeded [] r m).1 = Some StatusCreated
     ↔ ∃ info, body r = Ok info)
  ∧ statusSent (createNoteHandler seeded [] r m).1
    ≠ Some StatusInternalServerError
  ∧ (∀ n, noteSent (createNoteHandler seeded [] r m).1 = Some n
          ↔ ∃ info, body r = Ok info ∧ encodeErr r = None
                    ∧ n = newNote seeded r info)
  ∧ (noteSent (createNoteHandler seeded [] r m).1 = None →
     (createNoteHandler seeded [] r m).2 = m).
Proof.
  unfold createNoteHandler.
  destruct (body r) as [info|e] eqn:Hb.
  - destruct (encodeErr r) as [err|] eqn:He; simpl; settle.
  - simpl. settle.
Qed.

(** X5: a Create leaves every key but the identifier it drew as it
    was, and the map grows by one entry at most. *)
Theorem createNoteHandler_frame (seeded : Z → Z) (r : CreateRequest)
    (m : SyncMap) (k : Z) :
  (k = Int63 seeded (unixNano r)
   ∨ elems (createNoteHandler seeded [] r m).2 !! k = elems m !! k)
  ∧ (size (elems m) ≤ size (elems (createNoteHandler seeded [] r m).2)
     ≤ S (size (elems m)))%nat.
Proof.
  unfold createNoteHandler.
  destruct (body r) as [info|e]; [destruct (encodeErr r)|];
    cbn [fst snd elems]; try (split; [by right|lia]).
  split.
  - destruct (decide (k = Int63 seeded (unixNano r))) as [->|Hne];
      [by left|right]. by rewrite lookup_insert_ne.
  - destruct (elems m !! Int63 seeded (unixNano r)) as [old|] eqn:Hk.
    + unfold newNote at 1 3. cbn [ID].
      rewrite map_size_insert_Some by (by eexists). lia.
    + unfold newNote at 1 3. cbn [ID].
      rewrite map_size_insert_None by done. lia.
Qed.

(** ** The server as [main] wires it *)

Lemma ServeHTTP_cases (seeded : Z → Z) (r : Request) (m : SyncMap) :
  (URLPath r = createPostfix ∧ Method r = "POST"
   ∧ ServeHTTP seeded r m = createNoteHandler seeded [] (env r) m)
  ∨ (URLPath r = getPostfix ∧ Method r = "GET"
     ∧ ServeHTTP seeded r m
       = ([Error "Invalid note ID" StatusBadRequest], m))
  ∨ ((URLPath r = createPostfix ∨ URLPath r = getPostfix)
     ∧ ServeHTTP seeded r m = ([WriteHeader StatusMethodNotAllowed], m))
  ∨ (URLPath r ≠ createPostfix ∧ URLPath r ≠ getPostfix
     ∧ ServeHTTP seeded r m = ([Error "404 page not found" StatusNotFound], m)).
Proof.
  unfold ServeHTTP. repeat case_decide; auto 10.
Qed.

(** X6: whichever request is routed to [getNoteHandler], it is
    answered 400: a response with a Note in it is the 201 of a
    [POST /notes] and nothing else, and only that request changes the
    map. *)
Theorem ServeHTTP_sends_note_only_on_create (seeded : Z → Z) (r : Request)
    (m : SyncMap) :
  (noteSent (ServeHTTP seeded r m).1 = None
   ∨ (Method r = "POST" ∧ URLPath r = createPostfix
      ∧ statusSent (ServeHTTP seeded r m).1 = Some StatusCreated))
  ∧ ((ServeHTTP seeded r m).2 = m
     ∨ (Method r = "POST" ∧ URLPath r = createPostfix))
  ∧ statusSent (ServeHTTP seeded r m).1 ≠ Some StatusOK.
Proof.
  destruct (ServeHTTP_cases seeded r m)
    as [(Hp & Hm & ->)|[(Hp & Hm & ->)|[(Hp & ->)|(Hp & Hp' & ->)]]];
    try (by repeat split; auto).
  destruct (body (env r)) as [info|e] eqn:Hb;
    [destruct (encodeErr (env r)) as [err|] eqn:He|].
  - rewrite (createNoteHandler_encode_err _ _ _ _ info err) by done.
    repeat split; auto.
  - rewrite (createNoteHandler_ok _ _ _ _ info) by done.
    repeat split; auto.
  - rewrite (createNoteHandler_bad_body _ _ _ _ e) by done.
    repeat split; auto.
Qed.

Lemma append_empty (s : string) : (s ++ "")%string = s.
Proof.
  induction s as [|c s IH]; [done|].
  change (String c (s ++ "")%string = String c s). by rewrite IH.
Qed.

Lemma Sprintf_getPostfix (id : Z) :
  Sprintf getPostfix id = ("/notes/" ++ FormatInt id)%string.
Proof.
  change (Sprintf getPostfix id)
    with ("/notes/" ++ (FormatInt id ++ ""))%string.
  by rewrite append_empty.
Qed.

Lemma FormatInt_first (id : Z) :
  ∃ c s, FormatInt id = String c s ∧ c ≠ "%"%char.
Proof.
  unfold FormatInt. destruct (id <? 0) eqn:Hneg.
  - by eexists _, _.
  - apply Z.ltb_ge in Hneg.
    destruct (formatBits_first 19 id "" Hneg) as (c & s & d & Hs & Hd).
    exists c, s. split; [done|]. by intros ->.
Qed.

Lemma ServeHTTP_decimal_path (seeded : Z → Z) (method : string) (id : Z)
    (e : CreateRequest) (m : SyncMap) :
  ServeHTTP seeded (mkRequest method (Sprintf getPostfix id) e) m
  = ([Error "404 page not found" StatusNotFound], m).
Proof.
  destruct (FormatInt_first id) as (c & s & Hs & Hc).
  unfold ServeHTTP. cbn [URLPath Method].
  rewrite Sprintf_getPostfix, Hs.
  rewrite decide_False by (simpl; discriminate).
  rewrite decide_False; [done|].
  unfold getPostfix. simpl. intros [= -> _]. done.
Qed.

(** X7: the URL the client asks a Note by, [baseUrl + getPostfix] with
    the identifier printed in it, has a path no route of the server
    matches: for every identifier the request is answered 404 by the
    router, [getNoteHandler] is not run, and the map is as it was. *)
Theorem ServeHTTP_get_by_id_not_found (seeded : Z → Z) (id : Z)
    (e : CreateRequest) (m : SyncMap) :
  Sprintf (baseUrl ++ getPostfix) id = (baseUrl ++ Sprintf getPostfix id)%string
  ∧ ServeHTTP seeded (mkRequest "GET" (Sprintf getPostfix id) e) m
    = ([Error "404 page not found" StatusNotFound], m).
Proof.
  split; [reflexivity|]. apply ServeHTTP_decimal_path.
Qed.

Lemma ServeHTTP_store (seeded : Z → Z) (r : Request) (m : SyncMap) :
  (ServeHTTP seeded r m).2 = m
  ∨ ∃ info,
      body (env r) = Ok info
      ∧ (ServeHTTP seeded r m).2
        = {| elems := <[Int63 seeded (unixNano (env r)) :=
                          newNote seeded (env r) info]> (elems m) |}.
Proof.
  destruct (ServeHTTP_cases seeded r m)
    as [(Hp & Hm & ->)|[(Hp & Hm & ->)|[(Hp & ->)|(Hp & Hp' & ->)]]];
    try (by left).
  destruct (body (env r)) as [info|e] eqn:Hb;
    [destruct (encodeErr (env r)) as [err|] eqn:He|].
  - left. by rewrite (createNoteHandler_encode_err _ _ _ _ info err).
  - right. exists info. by rewrite (createNoteHandler_ok _ _ _ _ info).
  - left. by rewrite (createNoteHandler_bad_body _ _ _ _ e).
Qed.

Lemma ServeHTTP_wellStored (seeded : Z → Z) (r : Request) (m : SyncMap) :
  wellStored m → wellStored (ServeHTTP seeded r m).2.
Proof.
  intros Hm. destruct (ServeHTTP_store seeded r m) as [->|(info & _ & ->)];
    [done|].
  apply map_Forall_insert_2; [|done].
  split; [done|]. split; [apply Int63_range|done].
Qed.

Lemma serveAll_wellStored (seeded : Z → Z) (rs : list Request) (m : SyncMap) :
  wellStored m → wellStored (serveAll seeded rs m).
Proof.
  revert m. induction rs as [|r rs IH]; intros m Hm; [done|].
  simpl. by apply IH, ServeHTTP_wellStored.
Qed.

(** X8: whatever requests the server has handled since it started,
    every Note in the map is stored under its own identifier, the
    identifier is a non-negative 63-bit number, and [UpdatedAt] still
    equals [CreatedAt]: nothing in this server updates a Note. *)
Theorem server_notes_wellStored (seeded : Z → Z) (rs : list Request)
    (k : Z) (n : Note) :
  elems (serveAll seeded rs notes0) !! k = Some n →
  ID n = k ∧ 0 ≤ k < 2 ^ 63 ∧ UpdatedAt n = CreatedAt n.
Proof.
  intros Hn.
  by apply (serveAll_wellStored seeded rs notes0 (map_Forall_empty _) k n).
Qed.

Lemma server_notes_wellStored_witness :
  let rs := [mkRequest "POST" "/notes"
               (mkCreateRequest (Ok sampleInfo) 42 100 None);
             mkRequest "GET" "/notes/42"
               (mkCreateRequest (Err "EOF") 0 0 None)] in
  elems (serveAll (λ s, s) rs notes0) !! 42 = Some (mkNote 42 sampleInfo 100 100)
  ∧ ID (mkNote 42 sampleInfo 100 100) = 42 ∧ 0 ≤ 42 < 2 ^ 63
  ∧ UpdatedAt (mkNote 42 sampleInfo 100 100)
    = CreatedAt (mkNote 42 sampleInfo 100 100).
Proof.
  cbv zeta. split; [reflexivity|].
  apply (server_notes_wellStored (λ s, s)
           [mkRequest "POST" "/notes"
              (mkCreateRequest (Ok sampleInfo) 42 100 None);
            mkRequest "GET" "/notes/42"
              (mkCreateRequest (Err "EOF") 0 0 None)]
           42 (mkNote 42 sampleInfo 100 100)).
  reflexivity.
Defined.

(** X9: the server never removes a Note: a key the map holds is still
    there after any further requests, and the number of Notes grows by
    at most one per request. *)
Theorem server_keeps_keys (seeded : Z → Z) (rs : list Request) (m : SyncMap)
    (k : Z) :
  is_Some (elems m !! k) →
  is_Some (elems (serveAll seeded rs m) !! k)
  ∧ (size (elems m) ≤ size (elems (serveAll seeded rs m))
     ≤ size (elems m) + List.length rs)%nat.
Proof.
  revert m. induction rs as [|r rs IH]; intros m Hk; [simpl; split; [done|lia]|].
  cbn [serveAll List.length].
  assert (is_Some (elems (ServeHTTP seeded r m).2 !! k)
          ∧ (size (elems m) ≤ size (elems (ServeHTTP seeded r m).2)
             ≤ S (size (elems m)))%nat) as [Hk' Hsz].
  { destruct (ServeHTTP_store seeded r m) as [->|(info & _ & ->)];
      [split; [done|lia]|]. cbn [elems]. split.
    - destruct (decide (Int63 seeded (unixNano (env r)) = k)) as [<-|Hne].
      + rewrite lookup_insert_eq. by eexists.
      + by rewrite lookup_insert_ne.
    - destruct (elems m !! Int63 seeded (unixNano (env r))) eqn:Hold.
      + rewrite map_size_insert_Some by (by eexists). lia.
      + rewrite map_size_insert_None by done. lia. }
  destruct (IH _ Hk') as [Hk'' Hsz']. split; [done|]. lia.
Qed.

Lemma server_keeps_keys_witness :
  let m := {| elems := {[ 7 := mkNote 7 sampleInfo 100 100 ]} |} in
  let rs := [mkRequest "POST" "/notes"
               (mkCreateRequest (Ok sampleInfo) 7 200 None);
             mkRequest "DELETE" "/notes/7"
               (mkCreateRequest (Err "EOF") 0 0 None)] in
  is_Some (elems m !! 7)
  ∧ is_Some (elems (serveAll (λ s, s) rs m) !! 7)
  ∧ (size (elems m) ≤ size (elems (serveAll (λ s, s) rs m))
     ≤ size (elems m) + List.length rs)%nat.
Proof.
  cbv zeta. split; [by eexists|].
  apply (server_keeps_keys (λ s, s)
           [mkRequest "POST" "/notes"
              (mkCreateRequest (Ok sampleInfo) 7 200 None);
            mkRequest "DELETE" "/notes/7"
              (mkCreateRequest (Err "EOF") 0 0 None)]
           {| elems := {[ 7 := mkNote 7 sampleInfo 100 100 ]} |} 7).
  by eexists.
Defined.

(** ** The client *)

(** X10: [createNoteClient] reports no error for a response whose
    status is not 201: it returns the zero Note with a nil error,
    whatever the status and the body are. *)
Theorem createNoteClient_status_not_created (W Data : Type)
    (Marshal : NoteInfo → result string Data)
    (Post : string → Data → W → result string Client.Response * W)
    (Decode : Client.payload → result string Client.Note)
    (note : NoteInfo) (data : Data) (w w' : W) (resp : Client.Response) :
  Marshal note = Ok data →
  Post "http://localhost:8081/notes" data w = (Ok resp, w') →
  Client.StatusCode resp ≠ StatusCreated →
  Client.closeErr resp = None →
  Client.createNoteClient W Data Marshal Post Decode note w
  = (Client.Returns (Client.zero, None), w').
Proof.
  intros Hm Hp Hs Hc. unfold Client.createNoteClient.
  rewrite Hm.
  change (baseUrl ++ createPostfix)%string with "http://localhost:8081/notes".
  rewrite Hp. unfold Client.closing. rewrite Hc.
  by rewrite decide_True.
Qed.

Lemma createNoteClient_status_not_created_witness :
  let resp := Client.mkResponse 500 (Client.Text "boom") None in
  Client.StatusCode resp ≠ StatusCreated
  ∧ Client.createNoteClient unit NoteInfo Ok (λ _ _ w, (Ok resp, w))
      (λ _, Err "not a Note") sampleInfo tt
    = (Client.Returns (Client.zero, None), tt).
Proof.
  cbv zeta. split; [done|].
  apply (createNoteClient_status_not_created unit NoteInfo Ok
           (λ _ _ w, (Ok (Client.mkResponse 500 (Client.Text "boom") None), w))
           (λ _, Err "not a Note") sampleInfo sampleInfo tt tt
           (Client.mkResponse 500 (Client.Text "boom") None));
    done.
Defined.

(** X11: [getNoteClient] asks for the URL with the identifier in
    decimal; on a 404 it returns the zero Note with a nil error, on
    any other status but 200 the zero Note with an error, and on 200
    what the body decodes to. *)
Theorem getNoteClient_by_status (W : Type)
    (Get : string → W → result string Client.Response * W)
    (Decode : Client.payload → result string Client.Note)
    (id : Z) (w w' : W) (resp : Client.Response) :
  Get ("http://localhost:8081/notes/" ++ FormatInt id)%string w
    = (Ok resp, w') →
  Client.closeErr resp = None →
  ∃ ret, Client.getNoteClient W Get Decode id w = (Client.Returns ret, w')
    ∧ (Client.StatusCode resp = StatusNotFound → ret = (Client.zero, None))
    ∧ (Client.StatusCode resp ≠ StatusNotFound →
       Client.StatusCode resp ≠ StatusOK →
       ret.1 = Client.zero ∧ is_Some ret.2)
    ∧ (Client.StatusCode resp = StatusOK →
       ret = match Decode (Client.Body resp) with
             | Err err => (Client.zero, Some err)
             | Ok n => (n, None)
             end).
Proof.
  intros Hg Hc. unfold Client.getNoteClient.
  replace (Sprintf (baseUrl ++ getPostfix) id)
    with ("http://localhost:8081/notes/" ++ FormatInt id)%string.
  2:{ change (Sprintf (baseUrl ++ getPostfix) id)
        with ("http://localhost:8081/notes/" ++ (FormatInt id ++ ""))%string.
      by rewrite append_empty. }
  rewrite Hg. unfold Client.closing. rewrite Hc.
  eexists. split; [reflexivity|].
  repeat case_decide; repeat split; try done.
  all: intros; unfold StatusNotFound, StatusOK in *; try (by eexists); lia.
Qed.

Lemma getNoteClient_by_status_witness :
  let resp := Client.mkResponse 404 (Client.Text "Note not found") None in
  Client.closeErr resp = None
  ∧ Client.getNoteClient unit (λ _ w, (Ok resp, w)) (λ _, Err "not a Note")
      7 tt
    = (Client.Returns (Client.zero, None), tt).
Proof.
  cbv zeta. split; [done|].
  destruct (getNoteClient_by_status unit
              (λ _ w, (Ok (Client.mkResponse 404 (Client.Text "Note not found")
                             None), w))
              (λ _, Err "not a Note") 7 tt tt
              (Client.mkResponse 404 (Client.Text "Note not found") None)
              eq_refl eq_refl) as (ret & Hret & H404 & _).
  rewrite Hret. by rewrite (H404 eq_refl).
Defined.

Lemma urlPath_baseUrl (path : string) :
  Client.urlPath (baseUrl ++ path) = path.
Proof. reflexivity. Qed.

Lemma get_by_id (seeded : Z → Z) (e : Client.ServerEnv) (id : Z)
    (m : SyncMap) :
  Client.get seeded e (Sprintf (baseUrl ++ getPostfix) id) m
  = (Ok (Client.mkResponse StatusNotFound (Client.Text "404 page not found")
           None), m).
Proof.
  unfold Client.get.
  change (Sprintf (baseUrl ++ getPostfix) id)
    with (baseUrl ++ Sprintf getPostfix id)%string.
  rewrite urlPath_baseUrl, ServeHTTP_decimal_path. reflexivity.
Qed.

Lemma getNoteClient_against_server_aux (seeded : Z → Z)
    (formatTime : Time → string)
    (decodeText : string → result string Client.Note)
    (e : Client.ServerEnv) (id : Z) (m : SyncMap) :
  Client.getNoteClient SyncMap (Client.get seeded e)
    (Client.decodeBody formatTime decodeText) id m
  = (Client.Returns (Client.zero, None), m).
Proof.
  unfold Client.getNoteClient. rewrite get_by_id. reflexivity.
Qed.

(** X12: against this server [getNoteClient] never gets a Note: for
    every identifier and every map of the server it returns the zero
    Note with a nil error, and the map is as it was. *)
Theorem getNoteClient_against_server (seeded : Z → Z)
    (formatTime : Time → string)
    (decodeText : string → result string Client.Note)
    (e : Client.ServerEnv) (id : Z) (m : SyncMap) :
  Client.getNoteClient SyncMap (Client.get seeded e)
    (Client.decodeBody formatTime decodeText) id m
  = (Client.Returns (Client.zero, None), m).
Proof. apply getNoteClient_against_server_aux. Qed.

Lemma post_create (seeded : Z → Z) (u : Z) (t : Time) (note : NoteInfo)
    (m : SyncMap) :
  Client.post seeded (Client.mkServerEnv u t None) (baseUrl ++ createPostfix)
    note m
  = (Ok (Client.mkResponse StatusCreated
           (Client.JSONNote (mkNote (Int63 seeded u) note t t)) None),
     {| elems := <[Int63 seeded u := mkNote (Int63 seeded u) note t t]>
                   (elems m) |}).
Proof.
  unfold Client.post. rewrite urlPath_baseUrl.
  unfold ServeHTTP. cbn [URLPath Method env].
  rewrite decide_True by done. rewrite decide_True by done.
  by rewrite (createNoteHandler_ok _ _ _ _ note).
Qed.

(** X13: the client's [main] run against the server, when the server
    encodes its answer: the Note it logs as created has the identifier
    the server drew and the NoteInfo that was sent, the server holds
    that Note under that identifier, and the Note it logs as got is
    the zero Note. *)
Theorem main_against_server (seeded : Z → Z) (formatTime : Time → string)
    (decodeText : string → result string Client.Note)
    (u : Z) (t : Time) (e2 : Client.ServerEnv) (note : NoteInfo)
    (m : SyncMap) :
  let id := Int63 seeded u in
  Client.mainAgainst seeded formatTime decodeText
    (Client.mkServerEnv u t None) e2 note m
  = (Client.Returns
       [Client.mkNote id note (formatTime t) (formatTime t); Client.zero],
     {| elems := <[id := mkNote id note t t]> (elems m) |}).
Proof.
  intros id. unfold Client.mainAgainst, Client.main, Client.createNoteClient.
  rewrite post_create. unfold Client.closing. cbn [Client.closeErr].
  rewrite decide_False by (intros H; by apply H).
  cbn [Client.Body Client.decodeBody Client.wire ID Info CreatedAt UpdatedAt
       Client.StatusCode Client.ID].
  by rewrite getNoteClient_against_server_aux.
Qed.

(** ** The handlers return and give the lock back *)

Module Progress.
Import Locking LockingProps.

Lemma remaining_insert (ts : list thread) (i : nat) (t t' : thread) :
  ts !! i = Some t →
  (remaining (<[i := t']> ts) + List.length (prog t)
   = remaining ts + List.length (prog t'))%nat.
Proof.
  unfold remaining. revert i.
  induction ts as [|x ts IH]; intros [|i] H; try done; simpl in *.
  - injection H as ->. lia.
  - specialize (IH i H). lia.
Qed.

Lemma remaining_zero (ts : list thread) :
  remaining ts = 0%nat ↔ ∀ i t, ts !! i = Some t → prog t = [].
Proof.
  unfold remaining. induction ts as [|x ts IH]; simpl.
  - split; [by intros _ i t ?|done].
  - split.
    + intros H [|i] t Ht; simpl in Ht.
      * injection Ht as <-. destruct (prog x); [done|simpl in H; lia].
      * apply (proj1 IH ltac:(lia) i t Ht).
    + intros H. rewrite (H 0%nat x eq_refl). simpl.
      apply IH. intros i t Ht. by apply (H (S i)).
Qed.

(** Every instruction shortens what the goroutine has left, also the
    return of a lookup that misses. *)
Lemma exec_shrinks (t t' : thread) (s s' : shared) (out : option Note) :
  exec t s = Some (t', s', out) →
  disciplined t →
  (List.length (prog t') < List.length (prog t))%nat.
Proof.
  intros He Hs. exec_cases t.
  all: repeat case_match; simplify_eq/=; try lia.
  all: split_andb; destruct k; simpl in *; try done; lia.
Qed.

(** A goroutine that keeps the discipline is never refused by
    anything but the mutex. *)
Lemma exec_enabled (t : thread) (s : shared) :
  disciplined t →
  allocated s t →
  prog t ≠ [] →
  (held t = Writing → writer (mu s) = true) →
  (held t = Reading → readerCount (mu s) ≠ 0%nat) →
  (held t = Idle → mu s = mkRWMutex false 0) →
  is_Some (exec t s).
Proof.
  intros Hs [Hmap Hcur] Hp Hw Hr Hi. exec_cases t.
  all: try (exfalso; by apply Hp).
  all: try (specialize (Hi eq_refl); rewrite Hi; simpl).
  all: try (rewrite (Hw eq_refl)).
  all: try (destruct (readerCount (mu s)) eqn:Hrc; [by destruct (Hr eq_refl)|]).
  all: repeat case_match; try (by eexists); try done.
  all: split_andb; try done.
  all: simpl in *.
  all: match goal with
       | H : heap _ !! ?p = None |- _ =>
         destruct (Hcur p eq_refl) as [? Hsome]; by rewrite Hsome in H
       end.
Qed.

Lemma readers_none (ts : list thread) :
  (∀ i t, ts !! i = Some t → held t ≠ Reading) → readers ts = 0%nat.
Proof.
  induction ts as [|x ts IH]; intros H; [done|].
  rewrite readers_cons. unfold isReading.
  rewrite decide_False by apply (H 0%nat x eq_refl).
  apply IH. intros i t Ht. by apply (H (S i)).
Qed.

(** When the mutex is write-locked, one of the goroutines is the one
    that locked it. *)
Lemma writer_is_a_thread (hs : list handler) (c : config) :
  reachable hs c →
  writer (mu (mem c)) = true →
  ∃ i t, threads c !! i = Some t ∧ held t = Writing.
Proof.
  induction 1 as [|c i c' out Hr IH Hstep]; [done|].
  pose proof (reachable_invariant hs c Hr) as Hinv.
  destruct (stepAt_inv _ _ _ _ Hstep) as (t & t' & Ht & He & Hts).
  pose proof (exec_lock _ _ _ _ _ He (inv_disc c Hinv _ _ Ht)) as Hlock.
  assert (i < List.length (threads c))%nat as Hlen by by eapply lookup_lt_Some.
  intros Hw. rewrite Hts.
  destruct Hlock as [(Hh & Hmu)|[(_ & Hh & _)|
    [(_ & _ & _ & Hmu)|[(_ & _ & _ & Hmu)|(Hh & _ & _ & Hmu)]]]].
  - rewrite Hmu in Hw. destruct (IH Hw) as (j & tj & Hj & Hwj).
    destruct (decide (j = i)) as [->|Hne].
    + exists i, t'. rewrite list_lookup_insert_eq by done.
      split; [done|]. rewrite Ht in Hj. injection Hj as <-. congruence.
    + exists j, tj. by rewrite list_lookup_insert_ne.
  - exists i, t'. by rewrite list_lookup_insert_eq.
  - by rewrite Hmu in Hw.
  - by rewrite Hmu in Hw.
  - rewrite Hmu in Hw. destruct (IH Hw) as (j & tj & Hj & Hwj).
    exists j, tj. rewrite list_lookup_insert_ne; [done|].
    intros <-. rewrite Ht in Hj. injection Hj as <-. congruence.
Qed.

(** What [exec_enabled] asks of the mutex holds for a goroutine that
    holds it. *)
Lemma holder_enabled (hs : list handler) (c : config) (i : nat) (t : thread) :
  reachable hs c →
  threads c !! i = Some t →
  held t ≠ Idle →
  is_Some (exec t (mem c)).
Proof.
  intros Hr Ht Hh. pose proof (reachable_invariant hs c Hr) as Hinv.
  pose proof (inv_disc c Hinv _ _ Ht) as Hd.
  apply exec_enabled; try done.
  - by apply (inv_alloc c Hinv i).
  - intros Hp. unfold disciplined in Hd. rewrite Hp in Hd. simpl in Hd.
    by apply bool_decide_eq_true in Hd.
  - by apply (inv_writer c Hinv i).
  - intros Hrd Hz. pose proof (readers_pos _ _ _ Ht Hrd) as Hpos.
    rewrite (inv_readers c Hinv), Hz in Hpos. lia.
Qed.

Lemma idle_enabled (hs : list handler) (c : config) (i : nat) (t : thread) :
  reachable hs c →
  (∀ j tj, threads c !! j = Some tj → held tj = Idle) →
  threads c !! i = Some t →
  prog t ≠ [] →
  is_Some (exec t (mem c)).
Proof.
  intros Hr Hall Ht Hp. pose proof (reachable_invariant hs c Hr) as Hinv.
  assert (mu (mem c) = mkRWMutex false 0) as Hmu.
  { assert (writer (mu (mem c)) = false) as Hw.
    { destruct (writer (mu (mem c))) eqn:Hw; [|done].
      destruct (writer_is_a_thread hs c Hr Hw) as (j & tj & Hj & Hwj).
      rewrite (Hall _ _ Hj) in Hwj. done. }
    assert (readerCount (mu (mem c)) = 0%nat) as Hrc.
    { rewrite <- (inv_readers c Hinv). apply readers_none.
      intros j tj Hj. by rewrite (Hall _ _ Hj). }
    destruct (mu (mem c)). simpl in *. by subst. }
  apply exec_enabled; try done.
  - by apply (inv_disc c Hinv i).
  - by apply (inv_alloc c Hinv i).
  - by rewrite (Hall _ _ Ht).
  - by rewrite (Hall _ _ Ht).
Qed.

Lemma some_thread_steps (hs : list handler) (c : config) (i : nat)
    (t : thread) :
  reachable hs c →
  threads c !! i = Some t →
  prog t ≠ [] →
  ∃ j c' out, stepAt j c = Some (c', out).
Proof.
  intros Hr Ht Hp.
  assert (∀ j tj, threads c !! j = Some tj → is_Some (exec tj (mem c)) →
            ∃ j c' out, stepAt j c = Some (c', out)) as Hgo.
  { intros j tj Hj [[[t' s'] out] He]. exists j. unfold stepAt.
    rewrite Hj, He. by eexists _, _. }
  destruct (decide (Exists (λ tj, held tj ≠ Idle) (threads c))) as [Hex|Hno].
  - apply Exists_exists in Hex as (tj & Hin & Hh).
    apply list_elem_of_lookup in Hin as [j Hj].
    apply (Hgo j tj Hj). by eapply holder_enabled.
  - apply (Hgo i t Ht). eapply idle_enabled; try done.
    intros j tj Hj. destruct (decide (held tj = Idle)) as [|Hn]; [done|].
    exfalso. apply Hno, Exists_exists. exists tj. split; [|done].
    apply list_elem_of_lookup. by exists j.
Qed.

Lemma stepAt_remaining (hs : list handler) (i : nat) (c c' : config)
    (out : option Note) :
  reachable hs c →
  stepAt i c = Some (c', out) →
  (remaining (threads c') < remaining (threads c))%nat.
Proof.
  intros Hr Hstep. pose proof (reachable_invariant hs c Hr) as Hinv.
  destruct (stepAt_inv _ _ _ _ Hstep) as (t & t' & Ht & He & ->).
  pose proof (exec_shrinks _ _ _ _ _ He (inv_disc c Hinv _ _ Ht)).
  pose proof (remaining_insert _ _ _ t' Ht). lia.
Qed.

Lemma remaining_pos (ts : list thread) :
  remaining ts ≠ 0%nat → ∃ i t, ts !! i = Some t ∧ prog t ≠ [].
Proof.
  unfold remaining. induction ts as [|x ts IH]; simpl; [done|].
  intros H. destruct (prog x) as [|a k] eqn:Hx.
  - destruct IH as (i & t & Ht & Hp); [simpl in H; lia|].
    by exists (S i), t.
  - exists 0%nat, x. split; [done|]. by rewrite Hx.
Qed.

Lemma finished_free (hs : list handler) (c : config) :
  reachable hs c → finished c → mu (mem c) = mkRWMutex false 0.
Proof.
  intros Hr Hfin. pose proof (reachable_invariant hs c Hr) as Hinv.
  assert (∀ j tj, threads c !! j = Some tj → held tj = Idle) as Hall.
  { intros j tj Hj. pose proof (inv_disc c Hinv _ _ Hj) as Hd.
    unfold disciplined in Hd. rewrite (Hfin _ _ Hj) in Hd.
    by apply bool_decide_eq_true in Hd. }
  assert (writer (mu (mem c)) = false) as Hw.
  { destruct (writer (mu (mem c))) eqn:Hw; [|done].
    destruct (writer_is_a_thread hs c Hr Hw) as (j & tj & Hj & Hwj).
    rewrite (Hall _ _ Hj) in Hwj. done. }
  assert (readerCount (mu (mem c)) = 0%nat) as Hrc.
  { rewrite <- (inv_readers c Hinv). apply readers_none.
    intros j tj Hj. by rewrite (Hall _ _ Hj). }
  destruct (mu (mem c)). simpl in *. by subst.
Qed.

Lemma afterMiss_reachable : reachable sourceHandlers afterMiss.
Proof.
  apply (run_reachable sourceHandlers [0; 0; 0]%nat (init sourceHandlers)
           afterMiss []); [constructor|].
  by vm_compute.
Qed.

(** X14: a handler that has returned holds nothing of the mutex,
    whichever way it returned, the 404 return of [getNoteHandler]
    included; and once every handler has returned the mutex is free. *)
Theorem returned_holds_nothing (hs : list handler) (c : config) (i : nat)
    (t : thread) :
  reachable hs c →
  threads c !! i = Some t →
  prog t = [] →
  held t = Idle ∧ (finished c → mu (mem c) = mkRWMutex false 0).
Proof.
  intros Hr Ht Hp. split; [|by apply (finished_free hs)].
  pose proof (inv_disc c (reachable_invariant hs c Hr) _ _ Ht) as Hd.
  unfold disciplined in Hd. rewrite Hp in Hd.
  by apply bool_decide_eq_true in Hd.
Qed.

Lemma returned_holds_nothing_witness :
  let t := {| prog := []; held := Idle; cur := None; buf := zeroNote;
              got := [] |} in
  threads afterMiss !! 0%nat = Some t ∧ prog t = [] ∧ held t = Idle.
Proof.
  cbv zeta. split; [by vm_compute|]. split; [done|].
  apply (returned_holds_nothing sourceHandlers afterMiss 0
           {| prog := []; held := Idle; cur := None; buf := zeroNote;
              got := [] |} afterMiss_reachable); by vm_compute.
Defined.

(** X15: the handlers cannot deadlock on the mutex: as long as one of
    them has not returned, some goroutine can run its next
    instruction, and running it leaves less to run. *)
Theorem no_deadlock (hs : list handler) (c : config) (i : nat) (t : thread) :
  reachable hs c →
  threads c !! i = Some t →
  prog t ≠ [] →
  ∃ j c' out, stepAt j c = Some (c', out)
              ∧ (remaining (threads c') < remaining (threads c))%nat.
Proof.
  intros Hr Ht Hp.
  destruct (some_thread_steps hs c i t Hr Ht Hp) as (j & c' & out & Hstep).
  exists j, c', out. split; [done|]. by eapply stepAt_remaining.
Qed.

Lemma no_deadlock_witness :
  let t := spawn (createProg sampleNote) in
  threads afterMiss !! 1%nat = Some t ∧ prog t ≠ []
  ∧ ∃ j c' out, stepAt j afterMiss = Some (c', out)
                ∧ (remaining (threads c') < remaining (threads afterMiss))%nat.
Proof.
  cbv zeta. split; [by vm_compute|]. split; [done|].
  apply (no_deadlock sourceHandlers afterMiss 1
           (spawn (createProg sampleNote)) afterMiss_reachable);
    [by vm_compute|done].
Defined.

Lemma run_to_the_end (hs : list handler) (n : nat) (c : config) :
  reachable hs c →
  (remaining (threads c) ≤ n)%nat →
  ∃ sched c' outs, run sched c = Some (c', outs) ∧ finished c'
                   ∧ (List.length sched ≤ remaining (threads c))%nat.
Proof.
  revert c. induction n as [|n IH]; intros c Hr Hn.
  - exists [], c, []. split; [done|]. split; [|simpl; lia].
    intros i t Ht.
    apply (proj1 (remaining_zero (threads c)) ltac:(lia) i t Ht).
  - destruct (decide (remaining (threads c) = 0%nat)) as [Hz|Hnz].
    + exists [], c, []. split; [done|]. split; [|simpl; lia].
      intros i t Ht. apply (proj1 (remaining_zero (threads c)) Hz i t Ht).
    + destruct (remaining_pos _ Hnz) as (i & t & Ht & Hp).
      destruct (some_thread_steps hs c i t Hr Ht Hp)
        as (j & c1 & out & Hstep).
      pose proof (stepAt_remaining hs j c c1 out Hr Hstep) as Hlt.
      destruct (IH c1) as (sched & c' & outs & Hrun & Hfin & Hlen);
        [by eapply reachable_step|lia|].
      exists (j :: sched), c', (option_list out ++ outs).
      split; [|split; [done|simpl; lia]].
      simpl. by rewrite Hstep, Hrun.
Qed.

(** X16: every handler returns: from any configuration the server can
    be in, some schedule runs all the goroutines to their end, in no
    more steps than there are instructions left, and leaves the mutex
    free. *)
Theorem handlers_return (hs : list handler) (c : config) :
  reachable hs c →
  ∃ sched c' outs, run sched c = Some (c', outs) ∧ finished c'
                   ∧ mu (mem c') = mkRWMutex false 0
                   ∧ (List.length sched ≤ remaining (threads c))%nat.
Proof.
  intros Hr.
  destruct (run_to_the_end hs _ c Hr (le_n _))
    as (sched & c' & outs & Hrun & Hfin & Hlen).
  exists sched, c', outs. repeat split; try done.
  apply (finished_free hs); [|done]. by eapply run_reachable.
Qed.

Lemma handlers_return_witness :
  reachable sourceHandlers afterMiss
  ∧ ∃ sched c' outs, run sched afterMiss = Some (c', outs) ∧ finished c'
                     ∧ mu (mem c') = mkRWMutex false 0
                     ∧ (List.length sched ≤ remaining (threads afterMiss))%nat.
Proof.
  split; [apply afterMiss_reachable|].
  apply (handlers_return sourceHandlers afterMiss afterMiss_reachable).
Defined.

(** X17: no schedule runs longer than the instructions the goroutines
    have left: every run of the server ends. *)
Theorem run_bounded (hs : list handler) (sched : list nat) (c c' : config)
    (outs : list Note) :
  reachable hs c →
  run sched c = Some (c', outs) →
  (List.length sched + remaining (threads c') ≤ remaining (threads c))%nat.
Proof.
  revert c outs. induction sched as [|i sched IH]; intros c outs Hr Hrun.
  - simpl in Hrun. injection Hrun as <- _. simpl. lia.
  - simpl in Hrun.
    destruct (stepAt i c) as [[c1 out]|] eqn:Hs; [|done].
    destruct (run sched c1) as [[c2 outs']|] eqn:Hrest; [|done].
    injection Hrun as <- _.
    pose proof (stepAt_remaining hs i c c1 out Hr Hs).
    pose proof (IH c1 outs' ltac:(by eapply reachable_step) Hrest).
    simpl. lia.
Qed.

Lemma run_bounded_witness :
  ∃ c', run [1; 1; 1; 1]%nat afterMiss = Some (c', [])
        ∧ (4 + remaining (threads c') ≤ remaining (threads afterMiss))%nat.
Proof.
  eexists. split; [by vm_compute|].
  apply (run_bounded sourceHandlers [1; 1; 1; 1]%nat afterMiss _ []
           afterMiss_reachable).
  by vm_compute.
Defined.

End Progress.

(** ** One handler after the other *)

(** X18: a Create does not change what a Get answers for any
    identifier but the one the Create drew: the whole response, status
    and Note, is the one the Get would have had before. *)
Theorem Get_other_after_Create (seeded : Z → Z) (rc : CreateRequest)
    (rg : GetRequest) (m : SyncMap) (k : Z) :
  parseNoteID (idParam rg) = Ok k →
  k ≠ Int63 seeded (unixNano rc) →
  (getNoteHandler [] rg (createNoteHandler seeded [] rc m).2).1
  = (getNoteHandler [] rg m).1.
Proof.
  intros Hp Hne. unfold getNoteHandler. rewrite Hp.
  assert (elems (createNoteHandler seeded [] rc m).2 !! k = elems m !! k)
    as Hk.
  { unfold createNoteHandler.
    destruct (body rc) as [info|e]; [destruct (encodeErr rc)|]; try done.
    cbn [snd elems]. by apply lookup_insert_ne. }
  rewrite Hk. destruct (elems m !! k); [|done].
  by destruct (getEncodeErr rg).
Qed.

Lemma Get_other_after_Create_witness :
  let rc := mkCreateRequest (Ok sampleInfo) 8 200 None in
  let rg := mkGetRequest "7" None in
  let m := {| elems := {[ 7 := mkNote 7 sampleInfo 100 100 ]} |} in
  parseNoteID (idParam rg) = Ok 7
  ∧ 7 ≠ Int63 (λ s, s) (unixNano rc)
  ∧ (getNoteHandler [] rg (createNoteHandler (λ s, s) [] rc m).2).1
    = [HeaderSet "Content-Type" "application/json";
       Encode (mkNote 7 sampleInfo 100 100)].
Proof.
  cbv zeta. split; [reflexivity|]. split; [by vm_compute|].
  rewrite (Get_other_after_Create (λ s, s)
             (mkCreateRequest (Ok sampleInfo) 8 200 None)
             (mkGetRequest "7" None)
             {| elems := {[ 7 := mkNote 7 sampleInfo 100 100 ]} |} 7);
    [reflexivity|reflexivity|by vm_compute].
Defined.

(** ** What [parseNoteID] accepts *)

Lemma parseUintLoop_allDigits (s : string) (n m : Z) :
  parseUintLoop s n = Ok m → allDigits s = true.
Proof.
  revert n. induction s as [|c s IH]; intros n H; [done|].
  simpl in *. destruct (digit c) as [d|]; [|done].
  destruct (_ <=? n); [done|]. destruct (_ <? _); [done|].
  rewrite (IH _ H), andb_true_r. apply bool_decide_eq_true. by eexists.
Qed.

(** X19: [parseNoteID] accepts only an optional sign followed by at
    least one decimal digit and nothing else: the empty string, a
    lone sign, spaces, underscores or a [%d] left in the path are
    errors, to which [getNoteHandler] answers 400. *)
Theorem parseNoteID_syntax (idStr : string) (id : Z) :
  parseNoteID idStr = Ok id →
  ∃ sign digits,
    idStr = (sign ++ digits)%string
    ∧ (sign = "" ∨ sign = "+" ∨ sign = "-")
    ∧ digits ≠ ""
    ∧ allDigits digits = true.
Proof.
  unfold parseNoteID, ParseInt. destruct idStr as [|c s]; [done|].
  set (neg := Ascii.eqb c "-").
  set (s1 := if Ascii.eqb c "+" || neg then s else String c s).
  assert (∀ un, ParseUint s1 = Ok un → s1 ≠ "" ∧ allDigits s1 = true) as Hok.
  { intros un Hu. unfold ParseUint in Hu. destruct s1; [done|].
    split; [done|]. by eapply parseUintLoop_allDigits. }
  destruct (ParseUint s1) as [un|[]] eqn:Hu; cbv zeta.
  - intros _. destruct (Hok un eq_refl) as [Hne Hd]. subst s1 neg.
    destruct (Ascii.eqb c "+") eqn:Hplus; [|destruct (Ascii.eqb c "-") eqn:Hminus];
      simpl in *.
    + apply Ascii.eqb_eq in Hplus as ->. exists "+", s. auto.
    + apply Ascii.eqb_eq in Hminus as ->. exists "-", s. auto.
    + exists "", (String c s). auto.
  - done.
  - by destruct neg.
Qed.

Lemma parseNoteID_syntax_witness :
  parseNoteID "-42" = Ok (-42)
  ∧ ∃ sign digits,
      "-42" = (sign ++ digits)%string
      ∧ (sign = "" ∨ sign = "+" ∨ sign = "-")
      ∧ digits ≠ ""
      ∧ allDigits digits = true.
Proof.
  split; [reflexivity|].
  apply (parseNoteID_syntax "-42" (-42)). reflexivity.
Defined.
